(** * wsroom: the chat registry, dispatcher and connection handler

    A shallow embedding of [internal/chat/chat.go] (type [Chat]) and of the
    companion file that declares [User] (receive step and write paths),
    followed by the properties of the registry ([Register], [Rename],
    [Remove]), of default-name generation ([randName]), of the receive
    step ([Receive]), of the dispatcher ([writer]) and of the
    per-connection lock.

    Conventions of the embedding.
    - A [*User] is an index into a store of [User] records ([mem]); two
      variables that hold the same pointer see the same record, so the
      aliasing between [Chat.us], [Chat.ns] and the caller's handle is
      kept.  The only pointer outside the store is [nil].
    - Go's [uint] is taken to be 64 bits wide; [seq] wraps around.
    - A Go map value of type [Object] is [None] when it is the nil map and
      [Some m] otherwise: reading a nil map is allowed, writing to it
      panics.
    - Results of library and system calls (clock, random source, frame
      reader, JSON decoder, connection writes) are inputs of the
      operation that makes the call. *)

From Stdlib Require Import DecimalString.
From stdpp Require Import gmap strings list fin_maps sorting.

Local Open Scope string_scope.
Local Open Scope list_scope.
Local Open Scope nat_scope.
#[local] Set Warnings "-register-all".

(** ** Panics *)

Inductive outcome (A : Type) : Type :=
  | Ret (a : A)
  | Panic (msg : string).
Arguments Ret {A} a.
Arguments Panic {A} msg.

(** ** Protocol types (chat.go, lines 25-44) *)

(** Dynamic values held by an [Object]: what [encoding/json] decodes into
    an [interface{}], plus the [int64] that the handlers store under
    "time".  The payload of a JSON number is a float64, kept as its bit
    pattern; it is never inspected. *)
Inductive value : Type :=
  | VNil
  | VBool (b : bool)
  | VFloat64 (bits : Z)
  | VString (s : string)
  | VInt64 (z : Z)
  | VArray (l : list value)
  | VObject (kvs : list (string * value)).

Abbreviation Object := (option (gmap string value)).

Record Request := mkRequest {
  req_ID : Z;
  req_Method : string;
  req_Params : Object }.

Record Response := mkResponse {
  resp_ID : Z;
  resp_Result : Object }.

Record Error := mkError {
  err_ID : Z;
  err_Error : Object }.

(** ** Participants and registry state *)

Abbreviation ptr := nat.

Record User := mkUser {
  id : N;
  name : string }.

Record Chat := mkChat {
  seq : N;
  us : list ptr;
  ns : gmap string ptr }.

Record State := mkState {
  mem : list User;
  chat : Chat }.

Definition uint_modulus : N := 2 ^ 64.

Definition NewChat : Chat := {| seq := 0; us := []; ns := ∅ |}.
Definition init : State := {| mem := []; chat := NewChat |}.

(** ** Default-name generation (chat.go, lines 191-201) *)

(** [rand.Intn n] returns a value in [0, n) and panics when [n <= 0]; the
    random source supplies the raw draw. *)
Definition Intn (n : nat) (raw : nat) : nat := raw mod n.

(** [strconv.Itoa] on a non-negative int. *)
Definition Itoa (n : nat) : string := NilZero.string_of_uint (Nat.to_uint n).

Section RandName.
(** The word list [animals] is declared in a file that is not part of the
    sources at hand; it is a parameter. *)
Variable animals : list string.
(** [rnd k] is the raw draw of the [k]-th call to the random source made
    by one call of [randName]. *)
Variable rnd : nat → nat.

(** The loop of [randName].  Round [k] makes calls [2k] (word) and [2k+1]
    (digit) to the random source.  [None]: the fuel ran out. *)
Fixpoint randName_loop (fuel : nat) (ns : gmap string ptr)
    (pos : nat) (suffix : string) : option (outcome string) :=
  match fuel with
  | O => None
  | S fuel' =>
    match animals with
    | [] => Some (Panic "invalid argument to Intn")
    | _ =>
      let name := nth (Intn (length animals) (rnd pos)) animals "" +:+ suffix in
      match ns !! name with
      | None => Some (Ret name)
      | Some _ =>
        randName_loop fuel' ns (pos + 2)
          (suffix +:+ Itoa (Intn 10 (rnd (pos + 1))))
      end
    end
  end.

(** The length of the longest name in the name map. *)
Definition max_name_len (ns : gmap string ptr) : nat :=
  max_list (String.length <$> (map_to_list ns).*1).

(** [randName] as a total function: the loop is run with more fuel than
    it can use (the suffix of round [k] is [k] digits long, so a round
    past the longest name of the map finds a free name); the [None]
    branch mirrors the unreachable [return ""] after the loop. *)
Definition randName (ns : gmap string ptr) : outcome string :=
  match randName_loop (S (S (max_name_len ns))) ns 0 "" with
  | Some r => r
  | None => Ret ""
  end.
End RandName.

(** ** Messages and observable effects *)

(** The argument [x] of [User.write]. *)
Inductive message : Type :=
  | MsgRequest (r : Request)
  | MsgResponse (r : Response)
  | MsgError (e : Error).

Inductive event : Type :=
  | EvWrite (u : ptr) (x : message)   (* u.write(x): one text frame on u's connection *)
  | EvBroadcast (r : Request)         (* c.out <- the encoding of r *)
  | EvClose (u : ptr).                (* u.conn.Close() *)

(** [timestamp] (chat.go, lines 203-205); [now] is [time.Now().UnixNano()],
    and Go's integer division truncates. *)
Definition timestamp (now : Z) : Z := Z.quot now 1000000.

(** [Chat.Broadcast] (lines 133-150): the notice is encoded once and sent
    on [c.out].  Encoding into a memory buffer does not fail for the
    values built here, and every caller drops the returned error. *)
Definition Broadcast (method : string) (params : Object) : list event :=
  [EvBroadcast {| req_ID := 0; req_Method := method; req_Params := params |}].

Definition writeNotice (u : ptr) (method : string) (params : Object) : list event :=
  [EvWrite u (MsgRequest {| req_ID := 0; req_Method := method; req_Params := params |})].

(** ** Registry operations *)

Definition nil_deref : string := "invalid memory address or nil pointer dereference".

(** [Chat.Register] (lines 71-98).  The new [User] is allocated at the end
    of the store. *)
Definition Register (animals : list string) (rnd : nat → nat) (now : Z)
    (s : State) : outcome (ptr * State) * list event :=
  let c := chat s in
  let user := length (mem s) in
  match randName animals rnd (ns c) with
  | Panic m => (Panic m, [])
  | Ret nm =>
    let s' :=
      {| mem := mem s ++ [ {| id := seq c; name := nm |} ];
         chat := {| seq := (seq c + 1) mod uint_modulus;
                    us := us c ++ [user];
                    ns := <[nm := user]> (ns c) |} |} in
    (Ret (user, s'),
     (writeNotice user "hello" (Some {[ "name" := VString nm ]}) ++
      Broadcast "greet"
        (Some {[ "name" := VString nm; "time" := VInt64 (timestamp now) ]}))%list)
  end.

(** [Chat.Rename] (lines 117-130): returns [(prev, ok)] and the new state. *)
Definition Rename (s : State) (user : ptr) (nm : string)
    : outcome (string * bool * State) :=
  let c := chat s in
  match ns c !! nm with
  | Some _ => Ret ("", false, s)
  | None =>
    match mem s !! user with
    | None => Panic nil_deref
    | Some u =>
      let prev := name u in
      Ret (prev, true,
           {| mem := <[user := {| id := id u; name := nm |}]> (mem s);
              chat := {| seq := seq c;
                         us := us c;
                         ns := <[nm := user]> (delete prev (ns c)) |} |})
    end
  end.

(** [sort.Search]: binary search for the least index in [0, n) at which
    [f] holds.  The interval shrinks at every iteration, so [n] rounds of
    fuel are never exhausted. *)
Fixpoint Search_loop (fuel : nat) (f : nat → outcome bool) (i j : nat)
    : outcome nat :=
  match fuel with
  | O => Ret i
  | S fuel' =>
    if decide (i < j)%nat then
      let h := (i + j) / 2 in
      match f h with
      | Panic m => Panic m
      | Ret false => Search_loop fuel' f (h + 1) j
      | Ret true => Search_loop fuel' f i h
      end
    else Ret i
  end.

Definition Search (n : nat) (f : nat → outcome bool) : outcome nat :=
  Search_loop n f 0 n.

(** The closure passed to [sort.Search] by [remove]:
    [c.us[i].id >= user.id]. *)
Definition id_ge (s : State) (uid : N) (i : nat) : outcome bool :=
  match us (chat s) !! i with
  | None => Panic "index out of range"
  | Some p =>
    match mem s !! p with
    | None => Panic nil_deref
    | Some v => Ret (bool_decide (uid ≤ id v)%N)
    end
  end.

(** [Chat.remove] (lines 169-189). *)
Definition remove (s : State) (user : ptr) : outcome (bool * State) :=
  let c := chat s in
  match mem s !! user with
  | None => Panic nil_deref
  | Some u =>
    match ns c !! name u with
    | None => Ret (false, s)
    | Some _ =>
      let ns' := delete (name u) (ns c) in
      match Search (length (us c)) (id_ge s (id u)) with
      | Panic m => Panic m
      | Ret i =>
        if decide (length (us c) ≤ i)%nat then Panic "chat: inconsistent state"
        else
          Ret (true,
               {| mem := mem s;
                  chat := {| seq := seq c;
                             us := take i (us c) ++ drop (S i) (us c);
                             ns := ns' |} |})
      end
    end
  end.

(** [Chat.Remove] (lines 101-114).  The Go method returns nothing; the
    flag [removed] is returned here next to the new state. *)
Definition Remove (now : Z) (s : State) (user : ptr)
    : outcome (bool * State) * list event :=
  match remove s user with
  | Panic m => (Panic m, [])
  | Ret (false, s') => (Ret (false, s'), [])
  | Ret (true, s') =>
    match mem s' !! user with
    | None => (Panic nil_deref, [])
    | Some u =>
      (Ret (true, s'),
       Broadcast "goodbye"
         (Some {[ "name" := VString (name u); "time" := VInt64 (timestamp now) ]}))
    end
  end.

(** ** Sequences of registry calls *)

Inductive call : Type :=
  | CallRegister (rnd : nat → nat) (now : Z)
  | CallRename (user : ptr) (nm : string)
  | CallRemove (user : ptr) (now : Z).

Definition exec (animals : list string) (s : State) (c : call) : outcome State :=
  match c with
  | CallRegister rnd now =>
    match (Register animals rnd now s).1 with
    | Ret (_, s') => Ret s'
    | Panic m => Panic m
    end
  | CallRename user nm =>
    match Rename s user nm with
    | Ret (_, _, s') => Ret s'
    | Panic m => Panic m
    end
  | CallRemove user now =>
    match (Remove now s user).1 with
    | Ret (_, s') => Ret s'
    | Panic m => Panic m
    end
  end.

Fixpoint run (animals : list string) (s : State) (cs : list call) : outcome State :=
  match cs with
  | [] => Ret s
  | c :: cs' =>
    match exec animals s c with
    | Ret s' => run animals s' cs'
    | Panic m => Panic m
    end
  end.

(** ** The receive step (User.Receive and its helpers) *)

(** What the transport and the JSON decoder hand to [readRequest]. *)
Inductive frame : Type :=
  | ReadFailure (err : string)          (* wsutil.NextReader returned err *)
  | ControlFrame (res : option string)  (* control frame; result of the control-frame handler *)
  | Undecodable (err : string)          (* decoder.Decode returned err *)
  | Decoded (req : Request).            (* a data frame that decodes to req *)

(** [User.readRequest]: the pair [(req, err)]. *)
Definition readRequest (f : frame) : option Request * option string :=
  match f with
  | ReadFailure err => (None, Some err)
  | ControlFrame res => (None, res)
  | Undecodable err => (None, Some err)
  | Decoded req => (Some req, None)
  end.

(** [req.Params[k].(string)] with the comma-ok form. *)
Definition param_string (o : Object) (k : string) : option string :=
  match o with
  | None => None
  | Some m =>
    match m !! k with
    | Some (VString v) => Some v
    | _ => None
    end
  end.

(** [params[k] = v]. *)
Definition param_set (o : Object) (k : string) (v : value) : outcome Object :=
  match o with
  | None => Panic "assignment to entry in nil map"
  | Some m => Ret (Some (<[k := v]> m))
  end.

(** What one call of [Receive] does: its result (the returned error,
    [None] for nil), the registry state afterwards, and its effects in
    program order. *)
Record step : Type := mkStep {
  result : outcome (option string);
  after : State;
  events : list event }.

(** [User.write]: one frame is written; [wr] is what the connection
    answers. *)
Definition write (s : State) (u : ptr) (x : message) (wr : option string) : step :=
  {| result := Ret wr; after := s; events := [EvWrite u x] |}.

Definition writeErrorTo (s : State) (u : ptr) (req : Request) (err : Object)
    (wr : option string) : step :=
  write s u (MsgError {| err_ID := req_ID req; err_Error := err |}) wr.

Definition writeResultTo (s : State) (u : ptr) (req : Request) (res : Object)
    (wr : option string) : step :=
  write s u (MsgResponse {| resp_ID := req_ID req; resp_Result := res |}) wr.

(** [User.Receive].  [f] is the frame that arrives, [now] the clock
    reading and [wr] the result of the direct-reply write, if one is
    made.  A receiver outside the store is the nil pointer, on which the
    first field access panics. *)
Definition Receive (s : State) (u : ptr) (f : frame) (now : Z)
    (wr : option string) : step :=
  match mem s !! u with
  | None => {| result := Panic nil_deref; after := s; events := [] |}
  | Some usr =>
    match readRequest f with
    | (_, Some err) =>
      {| result := Ret (Some err); after := s; events := [EvClose u] |}
    | (None, None) =>
      {| result := Ret None; after := s; events := [] |}
    | (Some req, None) =>
      if String.eqb (req_Method req) "rename" then
        match param_string (req_Params req) "name" with
        | None => writeErrorTo s u req (Some {[ "error" := VString "bad params" ]}) wr
        | Some nm =>
          match Rename s u nm with
          | Panic m => {| result := Panic m; after := s; events := [] |}
          | Ret (_, false, s') =>
            writeErrorTo s' u req (Some {[ "error" := VString "already exists" ]}) wr
          | Ret (prev, true, s') =>
            let st := writeResultTo s' u req None wr in
            {| result := result st;
               after := after st;
               events :=
                 Broadcast "rename"
                   (Some {[ "prev" := VString prev; "name" := VString nm;
                            "time" := VInt64 (timestamp now) ]})
                 ++ events st |}
          end
        end
      else if String.eqb (req_Method req) "publish" then
        match param_set (req_Params req) "author" (VString (name usr)) with
        | Panic m => {| result := Panic m; after := s; events := [] |}
        | Ret p1 =>
          match param_set p1 "time" (VInt64 (timestamp now)) with
          | Panic m => {| result := Panic m; after := s; events := [] |}
          | Ret p2 =>
            {| result := Ret None; after := s; events := Broadcast "publish" p2 |}
          end
        end
      else
        writeErrorTo s u req (Some {[ "error" := VString "not implemented" ]}) wr
    end
  end.

(** ** The registry invariant *)

Definition name_of (s : State) (u : ptr) : option string := name <$> mem s !! u.
Definition id_of (s : State) (u : ptr) : option N := id <$> mem s !! u.

(** The membership set and the name map describe the same membership, and
    the membership set is ordered by id (what the search in [remove]
    relies on). *)
Record consistent (s : State) : Prop := mkConsistent {
  cons_alloc : ∀ u, u ∈ us (chat s) → is_Some (mem s !! u);
  cons_names : ∀ n u,
    ns (chat s) !! n = Some u ↔ u ∈ us (chat s) ∧ name_of s u = Some n;
  cons_sorted : ∀ i j p q a b,
    (i < j)%nat → us (chat s) !! i = Some p → us (chat s) !! j = Some q →
    id_of s p = Some a → id_of s q = Some b → (a < b)%N;
  cons_seq : ∀ p a, p ∈ us (chat s) → id_of s p = Some a → (a < seq (chat s))%N }.

(** The display names of the members, in membership order, are pairwise
    distinct. *)
Definition distinct_names (s : State) : Prop :=
  NoDup (name_of s <$> us (chat s)).

(** Calls as the receive loop of a connection makes them: [Rename] on a
    current member; [Remove] on a current member, or on a former one whose
    stored name is free; fewer than 2^64 registrations. *)
Definition proper (animals : list string) (s : State) (c : call) : Prop :=
  match c with
  | CallRegister _ _ => animals ≠ [] ∧ (seq (chat s) + 1 < uint_modulus)%N
  | CallRename user _ => user ∈ us (chat s)
  | CallRemove user _ =>
    user ∈ us (chat s) ∨
    ∃ u, mem s !! user = Some u ∧ ns (chat s) !! name u = None
  end.

Inductive reachable (animals : list string) : State → Prop :=
  | reach_init : reachable animals init
  | reach_step s c s' :
      reachable animals s → proper animals s c → exec animals s c = Ret s' →
      reachable animals s'.

(** ** The dispatcher (Chat.writer, lines 153-166) *)

Abbreviation bytes := (list Byte.byte).







(** ** The per-connection lock (User.io) *)

Inductive action : Type :=
  | ALock        (* u.io.Lock() *)
  | AUnlock      (* u.io.Unlock() *)
  | AReadBegin   (* wsutil.NextReader starts reading a frame *)
  | AReadEnd     (* the frame is read (decoded, or handled as a control frame) *)
  | AWrite.      (* bytes are written to u.conn *)

Inductive path : Type :=
  | PReadRequest   (* User.readRequest, lines 87-106 *)
  | PWrite         (* User.write, lines 129-141 *)
  | PWriteRaw.     (* User.writeRaw, lines 143-150 *)

(** What each path does to the connection and its lock, in program order.
    [write] writes when the encoder fills the buffer and when it flushes;
    the deferred [Unlock] runs last.  The answer that the control-frame
    handler may send from within [readRequest] belongs to the read and is
    made by the reader itself; [AWrite] stands for the writes of the two
    write paths. *)
Definition code (p : path) : list action :=
  match p with
  | PReadRequest => [ALock; AReadBegin; AReadEnd; AUnlock]
  | PWrite => [ALock; AWrite; AWrite; AUnlock]
  | PWriteRaw => [ALock; AWrite; AUnlock]
  end.

(** The goroutines at work on one connection: what each has still to do,
    and which of them holds the connection's lock. *)
Record config : Type := mkConfig {
  holder : option nat;
  threads : list (list action) }.

Definition start (progs : list (list path)) : config :=
  {| holder := None; threads := (λ ps, ps ≫= code) <$> progs |}.

(** Goroutine [t] takes its next action; [None] when it is finished or
    blocked on the lock. *)
Definition lstep (c : config) (t : nat) : option (action * config) :=
  match threads c !! t with
  | Some (a :: rest) =>
    match a with
    | ALock =>
      match holder c with
      | None => Some (a, {| holder := Some t; threads := <[t := rest]> (threads c) |})
      | Some _ => None
      end
    | AUnlock => Some (a, {| holder := None; threads := <[t := rest]> (threads c) |})
    | _ => Some (a, {| holder := holder c; threads := <[t := rest]> (threads c) |})
    end
  | _ => None
  end.

(** An interleaving: the goroutine chosen at each step. *)
Fixpoint interleave (c : config) (sched : list nat) : option config :=
  match sched with
  | [] => Some c
  | t :: sched' =>
    match lstep c t with
    | Some (_, c') => interleave c' sched'
    | None => None
    end
  end.

(** Some goroutine has begun to read a frame and has not finished. *)
Definition reading (c : config) : Prop :=
  ∃ t rest, threads c !! t = Some (AReadEnd :: rest).

(** ** Sample runs *)

(** A word list and a random source that always draws 0: the first
    participant is named "Ant", the second one "Ant0". *)
Definition zoo : list string := ["Ant"; "Bee"].
Definition draw0 : nat → nat := λ _, 0.

(** Two participants; the first one leaves; the second one takes the name
    that the first one had. *)
Definition name_reused : list call :=
  [CallRegister draw0 5; CallRegister draw0 6; CallRemove 0 7; CallRename 1 "Ant"].

Definition after_name_reused : State :=
  {| mem := [ {| id := 0; name := "Ant" |}; {| id := 1; name := "Ant" |} ];
     chat := {| seq := 2; us := [1]; ns := {[ "Ant" := 1 ]} |} |}.

(** The same with the roles exchanged: the second participant leaves and
    the first one takes its name. *)
Definition name_reused_by_elder : list call :=
  [CallRegister draw0 5; CallRegister draw0 6; CallRemove 1 7; CallRename 0 "Ant0"].

Definition after_name_reused_by_elder : State :=
  {| mem := [ {| id := 0; name := "Ant0" |}; {| id := 1; name := "Ant0" |} ];
     chat := {| seq := 2; us := [0]; ns := {[ "Ant0" := 0 ]} |} |}.

(** After [name_reused], the participant that left is renamed and a third
    one registers. *)
Definition rename_after_leaving : list call :=
  name_reused ++ [CallRename 0 "Bee"; CallRegister draw0 8].

Definition after_rename_after_leaving : State :=
  {| mem := [ {| id := 0; name := "Bee" |}; {| id := 1; name := "Ant" |};
              {| id := 2; name := "Ant" |} ];
     chat := {| seq := 3; us := [1; 2]; ns := {[ "Ant" := 2; "Bee" := 0 ]} |} |}.

(** One participant, named "Ant". *)
Definition one_member : State :=
  {| mem := [ {| id := 0; name := "Ant" |} ];
     chat := {| seq := 1; us := [0]; ns := {[ "Ant" := 0 ]} |} |}.

(** Requests as the decoder delivers them.  A request without "params"
    (or with "params": null) decodes with a nil [Params]. *)
Definition publish_without_params : Request :=
  {| req_ID := 1; req_Method := "publish"; req_Params := None |}.

Definition publish_hi : Request :=
  {| req_ID := 1; req_Method := "publish";
     req_Params := Some {[ "text" := VString "hi" ]} |}.

Definition rename_to_Fox : Request :=
  {| req_ID := 1; req_Method := "rename";
     req_Params := Some {[ "name" := VString "Fox" ]} |}.

Definition whisper : Request :=
  {| req_ID := 7; req_Method := "whisper"; req_Params := None |}.



(** ** Invariant of the lock model *)

(** A goroutine is between two paths, or inside one (past its [Lock] and
    not past its [Unlock]). *)
Definition outside (r : list action) : Prop := ∃ ps, r = ps ≫= code.

Definition inside (r : list action) : Prop :=
  ∃ p k ps, 0 < k < length (code p) ∧ r = drop k (code p) ++ (ps ≫= code).

(** Whoever is inside a path holds the lock. *)
Definition lock_inv (c : config) : Prop :=
  ∀ t r, threads c !! t = Some r →
         outside r ∨ (inside r ∧ holder c = Some t).

(** A reader and a broadcast delivery on the same connection, and the
    interleaving in which the reader has taken the lock and begun to
    read. *)
Definition reader_and_writer : list (list path) := [[PReadRequest]; [PWriteRaw]].
Definition reader_first : list nat := [0; 0].

(** ** Vocabulary of the further properties *)

(** Decimal digits, for the shape of generated names. *)
Definition is_digit (c : Ascii.ascii) : bool :=
  (48 <=? Ascii.nat_of_ascii c) && (Ascii.nat_of_ascii c <=? 57).

Fixpoint all_digits (s : string) : bool :=
  match s with
  | EmptyString => true
  | String c r => is_digit c && all_digits r
  end.


(** The lock model: the holder of the lock is inside a path, and a
    configuration in which every goroutine has run to its end. *)
Definition holder_inv (c : config) : Prop :=
  ∀ t, holder c = Some t → ∃ r, threads c !! t = Some r ∧ inside r.

Definition finished (c : config) : Prop :=
  ∀ t r, threads c !! t = Some r → r = [].

(** The direct writes among the effects of a step. *)
Definition direct_writes (evs : list event) : list (ptr * message) :=
  omap (λ e, match e with EvWrite v x => Some (v, x) | _ => None end) evs.

(** A "publish" request whose sender supplies its own author and time. *)
Definition publish_forged : Request :=
  {| req_ID := 2; req_Method := "publish";
     req_Params :=
       Some {[ "text" := VString "hi"; "author" := VString "Bee";
               "time" := VInt64 1 ]} |}.

(** * Properties *)

(** Membership in a literal list. *)
Ltac not_in_list H :=
  repeat (apply elem_of_cons in H as [H | H]; [discriminate H |]);
  apply elem_of_nil in H.


(** ** Default-name generation terminates *)

Lemma string_length_app (a b : string) :
  String.length (a +:+ b) = String.length a + String.length b.
Proof. induction a as [|c a IH]; simpl; [done | by rewrite IH]. Qed.

Lemma Intn_lt (n raw : nat) : n ≠ 0 → Intn n raw < n.
Proof. intros Hn. unfold Intn. by apply Nat.mod_upper_bound. Qed.

(** [strconv.Itoa] of a value below ten is one character long. *)
Lemma Itoa_digit_length (d : nat) : d < 10 → String.length (Itoa d) = 1.
Proof.
  intros Hd.
  do 10 (destruct d as [|d]; [reflexivity |]).
  lia.
Qed.

Lemma max_name_len_bound (m : gmap string ptr) (k : string) :
  is_Some (m !! k) → String.length k ≤ max_name_len m.
Proof.
  intros [v Hv]. unfold max_name_len.
  apply max_list_elem_of_le.
  apply list_elem_of_fmap. exists k. split; [done |].
  apply list_elem_of_fmap. exists (k, v). split; [done |].
  by apply elem_of_map_to_list.
Qed.

(** A candidate longer than every name of the map is free. *)
Lemma long_name_free (m : gmap string ptr) (k : string) :
  max_name_len m < String.length k → m !! k = None.
Proof.
  intros Hlen. destruct (m !! k) as [v|] eqn:Hk; [| done].
  assert (String.length k ≤ max_name_len m) by (apply max_name_len_bound; eauto).
  lia.
Qed.

Lemma randName_loop_round (animals : list string) (rnd : nat → nat)
    (m : gmap string ptr) (fuel pos : nat) (suffix : string) :
  animals ≠ [] →
  randName_loop animals rnd (S fuel) m pos suffix =
    match m !! (nth (Intn (length animals) (rnd pos)) animals "" +:+ suffix) with
    | None => Some (Ret (nth (Intn (length animals) (rnd pos)) animals "" +:+ suffix))
    | Some _ =>
      randName_loop animals rnd fuel m (pos + 2)
        (suffix +:+ Itoa (Intn 10 (rnd (pos + 1))))
    end.
Proof. by destruct animals. Qed.

Lemma randName_loop_finds (animals : list string) (rnd : nat → nat)
    (m : gmap string ptr) (fuel pos : nat) (suffix : string) :
  animals ≠ [] →
  max_name_len m < fuel + String.length suffix →
  ∃ nm, randName_loop animals rnd (S fuel) m pos suffix = Some (Ret nm)
        ∧ m !! nm = None.
Proof.
  intros Hne. revert pos suffix.
  induction fuel as [|fuel IH]; intros pos suffix Hlen;
    rewrite randName_loop_round by done;
    set (cand := nth _ _ _ +:+ suffix).
  - assert (m !! cand = None) as Hfree.
    { apply long_name_free. unfold cand. rewrite string_length_app. lia. }
    rewrite Hfree. eauto.
  - destruct (m !! cand) as [v|] eqn:Hc; [| eauto].
    apply IH. rewrite string_length_app, Itoa_digit_length; [lia |].
    by apply Intn_lt.
Qed.

(** C9. For every name map (finite by construction), every non-empty word
    list and every stream of random draws, the loop of [randName] stops
    within [max_name_len + 2] rounds, since the suffix of round [k] is [k]
    digits long: with that much fuel or more it returns a name, and that
    name is not in the map. *)
Theorem randName_terminates (animals : list string) (rnd : nat → nat)
    (m : gmap string ptr) (fuel : nat) :
  animals ≠ [] →
  max_name_len m + 1 < fuel →
  ∃ nm, randName_loop animals rnd fuel m 0 "" = Some (Ret nm) ∧ m !! nm = None.
Proof.
  intros Hne Hfuel. destruct fuel as [|fuel]; [lia |].
  apply randName_loop_finds; [done |]. simpl. lia.
Qed.

Lemma randName_terminates_witness :
  ∃ nm, randName_loop ["Ant"; "Bee"] (λ _, 0) 6 {[ "Ant" := 0; "Ant0" := 1 ]} 0 ""
        = Some (Ret nm)
      ∧ ({[ "Ant" := 0; "Ant0" := 1 ]} : gmap string ptr) !! nm = None.
Proof.
  apply (randName_terminates ["Ant"; "Bee"] (λ _, 0) {[ "Ant" := 0; "Ant0" := 1 ]} 6).
  - done.
  - vm_compute. lia.
Defined.

(** The total [randName] returns a fresh name. *)
Lemma randName_fresh (animals : list string) (rnd : nat → nat)
    (m : gmap string ptr) :
  animals ≠ [] → ∃ nm, randName animals rnd m = Ret nm ∧ m !! nm = None.
Proof.
  intros Hne. unfold randName.
  destruct (randName_loop_finds animals rnd m (S (max_name_len m)) 0 "" Hne)
    as (nm & -> & Hfree); [simpl; lia | eauto].
Qed.

(** ** Binary search *)

Lemma Search_loop_finds (f : nat → outcome bool) (n k fuel i j : nat) :
  (∀ h, h < n → f h = Ret (bool_decide (k ≤ h))) →
  i ≤ k ≤ j → j ≤ n → k < n ∨ i = j → j - i ≤ fuel →
  Search_loop fuel f i j = Ret k.
Proof.
  intros Hf. revert i j.
  induction fuel as [|fuel IH]; intros i j Hk Hj Hor Hfuel; cbn [Search_loop].
  - f_equal. lia.
  - case_decide as Hij; [| f_equal; lia].
    assert (i ≤ (i + j) / 2 < j) as Hh.
    { pose proof (Nat.div_mod_eq (i + j) 2).
      pose proof (Nat.mod_upper_bound (i + j) 2). lia. }
    rewrite Hf by lia.
    case_bool_decide; apply IH; lia.
Qed.

(** On a list in which [f] turns true exactly from index [k] on,
    [sort.Search] returns [k]. *)
Lemma Search_finds (f : nat → outcome bool) (n k : nat) :
  (∀ h, h < n → f h = Ret (bool_decide (k ≤ h))) → k < n →
  Search n f = Ret k.
Proof. intros Hf Hk. unfold Search. apply (Search_loop_finds f n); auto; lia. Qed.

(** ** The invariant holds under proper use *)

Lemma consistent_init : consistent init.
Proof.
  split; simpl.
  - intros u Hu. by apply elem_of_nil in Hu.
  - intros n u. rewrite lookup_empty. split; [done |].
    intros [Hu _]. by apply elem_of_nil in Hu.
  - intros i j p q a b _ Hi. by rewrite lookup_nil in Hi.
  - intros p a Hp. by apply elem_of_nil in Hp.
Qed.

Lemma consistent_NoDup (s : State) : consistent s → NoDup (us (chat s)).
Proof.
  intros Hc. apply NoDup_alt. intros i j p Hi Hj.
  destruct (cons_alloc s Hc p) as [u Hu].
  { apply list_elem_of_lookup. eauto. }
  assert (id_of s p = Some (id u)) as Hid by (unfold id_of; by rewrite Hu).
  destruct (Nat.lt_trichotomy i j) as [Hlt | [Heq | Hlt]]; [| done |].
  - pose proof (cons_sorted s Hc i j p p _ _ Hlt Hi Hj Hid Hid). lia.
  - pose proof (cons_sorted s Hc j i p p _ _ Hlt Hj Hi Hid Hid). lia.
Qed.

Lemma consistent_member_name (s : State) (p : ptr) (u : User) :
  consistent s → p ∈ us (chat s) → mem s !! p = Some u →
  ns (chat s) !! name u = Some p.
Proof.
  intros Hc Hp Hu. apply (cons_names s Hc). split; [done |].
  unfold name_of. by rewrite Hu.
Qed.

(** Under the invariant the names of the members are pairwise distinct. *)
Lemma consistent_distinct_names (s : State) : consistent s → distinct_names s.
Proof.
  intros Hc. unfold distinct_names.
  apply NoDup_fmap_2_strong; [| by apply consistent_NoDup].
  intros p q Hp Hq Heq.
  destruct (cons_alloc s Hc p Hp) as [u Hu].
  assert (name_of s p = Some (name u)) as Hn by (unfold name_of; by rewrite Hu).
  assert (ns (chat s) !! name u = Some p) as H1 by (by apply (cons_names s Hc)).
  assert (ns (chat s) !! name u = Some q) as H2.
  { apply (cons_names s Hc). split; [done | congruence]. }
  congruence.
Qed.

Lemma Register_consistent (animals : list string) (rnd : nat → nat) (now : Z)
    (s : State) :
  consistent s → animals ≠ [] → (seq (chat s) + 1 < uint_modulus)%N →
  ∃ nm s',
    (Register animals rnd now s).1 = Ret (length (mem s), s')
    ∧ ns (chat s) !! nm = None
    ∧ mem s' = mem s ++ [ {| id := seq (chat s); name := nm |} ]
    ∧ us (chat s') = us (chat s) ++ [length (mem s)]
    ∧ ns (chat s') = <[nm := length (mem s)]> (ns (chat s))
    ∧ seq (chat s') = (seq (chat s) + 1)%N
    ∧ consistent s'.
Proof.
  intros Hc Hne Hseq.
  destruct (randName_fresh animals rnd (ns (chat s)) Hne) as (nm & Hnm & Hfree).
  unfold Register. rewrite Hnm. cbn [fst].
  rewrite N.mod_small by done.
  eexists nm, _. split; [reflexivity |]. cbn [mem chat us ns seq].
  do 5 (split; [done |]).
  assert (∀ p, p ∈ us (chat s) → p < length (mem s)) as Hlt.
  { intros p Hp. apply lookup_lt_is_Some. by apply (cons_alloc s Hc). }
  assert (∀ p, p ∈ us (chat s) →
            (mem s ++ [ {| id := seq (chat s); name := nm |} ]) !! p = mem s !! p)
    as Hold.
  { intros p Hp. apply lookup_app_l. by apply Hlt. }
  assert ((mem s ++ [ {| id := seq (chat s); name := nm |} ]) !! length (mem s)
          = Some {| id := seq (chat s); name := nm |}) as Hnew.
  { by rewrite lookup_app_r, Nat.sub_diag. }
  assert (length (mem s) ∉ us (chat s)) as Hfresh.
  { intros Hin. apply Hlt in Hin. lia. }
  split; cbn [mem chat us ns seq]; unfold name_of, id_of; cbn [mem chat us ns seq].
  - intros u [Hu | ->%list_elem_of_singleton]%elem_of_app.
    + rewrite Hold by done. by apply (cons_alloc s Hc).
    + rewrite Hnew. eauto.
  - intros n u. rewrite elem_of_app, list_elem_of_singleton. split.
    + intros Hl. destruct (decide (nm = n)) as [-> | Hn].
      * rewrite lookup_insert_eq in Hl. injection Hl as <-.
        split; [by right |]. by rewrite Hnew.
      * rewrite lookup_insert_ne in Hl by done.
        apply (cons_names s Hc) in Hl as [Hu Hname].
        split; [by left |]. by rewrite Hold.
    + intros [[Hu | ->] Hname].
      * rewrite Hold in Hname by done.
        assert (ns (chat s) !! n = Some u) as Hl by (by apply (cons_names s Hc)).
        rewrite lookup_insert_ne; [done | congruence].
      * rewrite Hnew in Hname. injection Hname as <-. apply lookup_insert_eq.
  - intros i j p q a b Hij Hi Hj Ha Hb.
    assert (p ∈ us (chat s)) as Hp.
    { apply lookup_lt_Some in Hj as Hjlen. rewrite length_app in Hjlen. simpl in Hjlen.
      rewrite lookup_app_l in Hi by lia. apply list_elem_of_lookup. eauto. }
    rewrite Hold in Ha by done.
    destruct (decide (j < length (us (chat s)))) as [Hjl | Hjl].
    + rewrite lookup_app_l in Hi, Hj by lia.
      assert (q ∈ us (chat s)) as Hq by (apply list_elem_of_lookup; eauto).
      rewrite Hold in Hb by done.
      by apply (cons_sorted s Hc i j p q).
    + rewrite lookup_app_r in Hj by lia.
      apply list_lookup_singleton_Some in Hj as [_ <-].
      rewrite Hnew in Hb. injection Hb as <-.
      by apply (cons_seq s Hc p).
  - intros p a [Hp | ->%list_elem_of_singleton]%elem_of_app Ha.
    + rewrite Hold in Ha by done.
      pose proof (cons_seq s Hc p a Hp Ha). lia.
    + rewrite Hnew in Ha. injection Ha as <-. lia.
Qed.

Lemma Rename_taken (s : State) (user : ptr) (nm : string) :
  is_Some (ns (chat s) !! nm) → Rename s user nm = Ret ("", false, s).
Proof. intros [v Hv]. unfold Rename. by rewrite Hv. Qed.

Lemma Rename_free (s : State) (user : ptr) (nm : string) (u : User) :
  ns (chat s) !! nm = None → mem s !! user = Some u →
  Rename s user nm =
    Ret (name u, true,
         {| mem := <[user := {| id := id u; name := nm |}]> (mem s);
            chat := {| seq := seq (chat s);
                       us := us (chat s);
                       ns := <[nm := user]> (delete (name u) (ns (chat s))) |} |}).
Proof. intros Hfree Hu. unfold Rename. by rewrite Hfree, Hu. Qed.

Lemma Rename_consistent (s s' : State) (user : ptr) (nm prev : string) (ok : bool) :
  consistent s → user ∈ us (chat s) →
  Rename s user nm = Ret (prev, ok, s') → consistent s'.
Proof.
  intros Hc Huser HR.
  destruct (ns (chat s) !! nm) as [v|] eqn:Hnm.
  { rewrite Rename_taken in HR by eauto. by injection HR as _ _ <-. }
  destruct (cons_alloc s Hc user Huser) as [u Hu].
  rewrite (Rename_free s user nm u) in HR by done. injection HR as _ _ <-.
  pose proof (consistent_member_name s user u Hc Huser Hu) as Hprev.
  assert (user < length (mem s)) as Hlen by (by apply lookup_lt_is_Some).
  assert (∀ p, id_of {| mem := <[user := {| id := id u; name := nm |}]> (mem s);
                        chat := chat s |} p = id_of s p) as Hid.
  { intros p. unfold id_of. cbn [mem]. destruct (decide (p = user)) as [-> | Hp].
    - rewrite list_lookup_insert_eq by done. by rewrite Hu.
    - by rewrite list_lookup_insert_ne. }
  split; cbn [mem chat us ns seq].
  - intros p Hp. apply lookup_lt_is_Some. rewrite length_insert.
    apply lookup_lt_is_Some. by apply (cons_alloc s Hc).
  - intros n p. unfold name_of. cbn [mem]. split.
    + intros Hl. destruct (decide (nm = n)) as [-> | Hn].
      * rewrite lookup_insert_eq in Hl. injection Hl as <-.
        split; [done |]. by rewrite list_lookup_insert_eq.
      * rewrite lookup_insert_ne in Hl by done.
        apply lookup_delete_Some in Hl as [Hne Hl].
        apply (cons_names s Hc) in Hl as Hm. destruct Hm as [Hp Hname].
        split; [done |].
        rewrite list_lookup_insert_ne; [done |].
        intros ->. unfold name_of in Hname. rewrite Hu in Hname.
        simpl in Hname. congruence.
    + intros [Hp Hname]. destruct (decide (p = user)) as [-> | Hne].
      * rewrite list_lookup_insert_eq in Hname by done.
        injection Hname as <-. apply lookup_insert_eq.
      * rewrite list_lookup_insert_ne in Hname by done.
        assert (ns (chat s) !! n = Some p) as Hl by (by apply (cons_names s Hc)).
        rewrite lookup_insert_ne by congruence.
        rewrite lookup_delete_ne by congruence. done.
  - intros i j p q a b Hij Hi Hj Ha Hb.
    unfold id_of in Ha, Hb. cbn [mem] in Ha, Hb.
    pose proof (Hid p) as Hp. pose proof (Hid q) as Hq.
    unfold id_of in Hp, Hq. cbn [mem] in Hp, Hq.
    rewrite Hp in Ha. rewrite Hq in Hb.
    by apply (cons_sorted s Hc i j p q).
  - intros p a Hp Ha. unfold id_of in Ha. cbn [mem] in Ha.
    pose proof (Hid p) as Hp'. unfold id_of in Hp'. cbn [mem] in Hp'.
    rewrite Hp' in Ha. by apply (cons_seq s Hc p).
Qed.

(** Removing one slot of a slice. *)
Lemma elem_of_delete_ne {A} (l : list A) (k : nat) (x y : A) :
  l !! k = Some x → y ∈ l → y ≠ x → y ∈ delete k l.
Proof.
  intros Hk [h Hh]%list_elem_of_lookup Hne.
  apply list_elem_of_lookup.
  destruct (decide (h < k)) as [Hlt | Hge].
  - exists h. by rewrite list_lookup_delete_lt.
  - assert (h ≠ k) by (intros ->; congruence).
    exists (h - 1). rewrite list_lookup_delete_ge by lia.
    by replace (S (h - 1)) with h by lia.
Qed.

Lemma not_elem_of_delete_NoDup {A} (l : list A) (k : nat) (x : A) :
  NoDup l → l !! k = Some x → x ∉ delete k l.
Proof.
  intros Hnd Hk [h Hh]%list_elem_of_lookup.
  destruct (decide (h < k)) as [Hlt | Hge].
  - rewrite list_lookup_delete_lt in Hh by done.
    pose proof (proj1 (NoDup_alt l) Hnd _ _ _ Hh Hk). lia.
  - rewrite list_lookup_delete_ge in Hh by lia.
    pose proof (proj1 (NoDup_alt l) Hnd _ _ _ Hh Hk). lia.
Qed.

(** In a consistent registry the closure of [remove] is false below the
    slot of [user] and true from it on. *)
Lemma id_ge_member (s : State) (user : ptr) (u : User) (k h : nat) :
  consistent s → mem s !! user = Some u → us (chat s) !! k = Some user →
  h < length (us (chat s)) →
  id_ge s (id u) h = Ret (bool_decide (k ≤ h)).
Proof.
  intros Hc Hu Hk Hh.
  destruct (lookup_lt_is_Some_2 _ _ Hh) as [p Hp].
  destruct (cons_alloc s Hc p) as [v Hv]; [apply list_elem_of_lookup; eauto |].
  unfold id_ge. rewrite Hp, Hv. f_equal. apply bool_decide_ext.
  assert (id_of s user = Some (id u)) as Hidu by (unfold id_of; by rewrite Hu).
  assert (id_of s p = Some (id v)) as Hidv by (unfold id_of; by rewrite Hv).
  destruct (Nat.lt_trichotomy h k) as [Hlt | [-> | Hgt]].
  - pose proof (cons_sorted s Hc h k p user _ _ Hlt Hp Hk Hidv Hidu). lia.
  - assert (p = user) as -> by congruence.
    assert (v = u) as -> by congruence. lia.
  - pose proof (cons_sorted s Hc k h user p _ _ Hgt Hk Hp Hidu Hidv). lia.
Qed.

Lemma remove_member (s : State) (user : ptr) :
  consistent s → user ∈ us (chat s) →
  ∃ u k,
    mem s !! user = Some u ∧ us (chat s) !! k = Some user ∧
    remove s user =
      Ret (true,
           {| mem := mem s;
              chat := {| seq := seq (chat s);
                         us := delete k (us (chat s));
                         ns := delete (name u) (ns (chat s)) |} |}).
Proof.
  intros Hc Huser.
  destruct (cons_alloc s Hc user Huser) as [u Hu].
  apply list_elem_of_lookup in Huser as Hk. destruct Hk as [k Hk].
  exists u, k. do 2 (split; [done |]).
  unfold remove. rewrite Hu.
  rewrite (consistent_member_name s user u Hc Huser Hu).
  apply lookup_lt_Some in Hk as Hlen.
  rewrite (Search_finds _ _ k); [| | done].
  - case_decide; [lia |]. by rewrite delete_take_drop.
  - intros h Hh. by apply (id_ge_member s user).
Qed.

Lemma remove_consistent (s s' : State) (user : ptr) (removed : bool) :
  consistent s →
  user ∈ us (chat s) ∨ (∃ u, mem s !! user = Some u ∧ ns (chat s) !! name u = None) →
  remove s user = Ret (removed, s') → consistent s'.
Proof.
  intros Hc [Huser | (u & Hu & Hfree)] HR.
  2: { unfold remove in HR. rewrite Hu, Hfree in HR. by injection HR as _ <-. }
  destruct (remove_member s user Hc Huser) as (u & k & Hu & Hk & Heq).
  rewrite Heq in HR. injection HR as _ <-.
  pose proof (consistent_NoDup s Hc) as Hnd.
  pose proof (consistent_member_name s user u Hc Huser Hu) as Hprev.
  split; cbn [mem chat us ns seq]; unfold name_of, id_of; cbn [mem].
  - intros p Hp%list_elem_of_delete_inv. by apply (cons_alloc s Hc).
  - intros n p. split.
    + intros [Hne Hl]%lookup_delete_Some.
      apply (cons_names s Hc) in Hl as [Hp Hname].
      split; [| done]. apply (elem_of_delete_ne _ _ user); [done.. |].
      intros ->. unfold name_of in Hname. rewrite Hu in Hname.
      simpl in Hname. congruence.
    + intros [Hp Hname].
      assert (p ≠ user) as Hpu.
      { intros ->. by apply (not_elem_of_delete_NoDup _ _ _ Hnd Hk). }
      apply list_elem_of_delete_inv in Hp.
      assert (ns (chat s) !! n = Some p) as Hl by (by apply (cons_names s Hc)).
      rewrite lookup_delete_ne; [done | congruence].
  - intros i j p q a b Hij Hi Hj Ha Hb.
    rewrite list_lookup_delete in Hi, Hj.
    repeat case_decide;
      (eapply (cons_sorted s Hc); [| exact Hi | exact Hj | exact Ha | exact Hb]; lia).
  - intros p a Hp%list_elem_of_delete_inv Ha. by apply (cons_seq s Hc p).
Qed.

(** Without a change of names in between, removing a member twice is a
    removal followed by a reported no-op. *)
Lemma Remove_twice (now1 now2 : Z) (s : State) (user : ptr) :
  consistent s → user ∈ us (chat s) →
  ∃ s1 evs,
    Remove now1 s user = (Ret (true, s1), evs)
    ∧ (user ∉ us (chat s1))
    ∧ Remove now2 s1 user = (Ret (false, s1), []).
Proof.
  intros Hc Huser.
  destruct (remove_member s user Hc Huser) as (u & k & Hu & Hk & Heq).
  unfold Remove at 1. rewrite Heq. cbn [mem]. rewrite Hu.
  eexists _, _. split; [reflexivity |]. split.
  - cbn [chat us]. apply not_elem_of_delete_NoDup; [| done].
    by apply consistent_NoDup.
  - unfold Remove, remove. cbn [mem chat ns]. rewrite Hu.
    by rewrite lookup_delete_eq.
Qed.

Lemma exec_consistent (animals : list string) (s : State) (c : call) :
  consistent s → proper animals s c →
  ∃ s', exec animals s c = Ret s' ∧ consistent s'.
Proof.
  intros Hc Hp. destruct c as [rnd now | user nm | user now]; simpl in *.
  - destruct Hp as [Hne Hseq].
    destruct (Register_consistent animals rnd now s Hc Hne Hseq)
      as (nm & s' & -> & _ & _ & _ & _ & _ & Hc').
    eauto.
  - destruct (cons_alloc s Hc user Hp) as [u Hu].
    destruct (ns (chat s) !! nm) as [v|] eqn:Hnm.
    + rewrite Rename_taken by eauto. eauto.
    + pose proof (Rename_free s user nm u Hnm Hu) as HR.
      rewrite HR. eexists; split; [done |].
      by apply (Rename_consistent s _ user nm _ _ Hc Hp HR).
  - unfold Remove.
    assert (∃ r s', remove s user = Ret (r, s')) as (r & s' & HR).
    { destruct Hp as [Huser | (u & Hu & Hfree)].
      - destruct (remove_member s user Hc Huser) as (u & k & _ & _ & ->). eauto.
      - unfold remove. rewrite Hu, Hfree. eauto. }
    rewrite HR.
    pose proof (remove_consistent s s' user r Hc Hp HR) as Hc'.
    destruct r; [| eauto].
    assert (mem s' = mem s) as Hmem.
    { destruct Hp as [Huser | (u & Hu & Hfree)].
      - destruct (remove_member s user Hc Huser) as (u & k & _ & _ & Heq).
        rewrite Heq in HR. by injection HR as <-.
      - unfold remove in HR. rewrite Hu, Hfree in HR. done. }
    rewrite Hmem.
    destruct (mem s !! user) as [u|] eqn:Hu; [eauto |].
    unfold remove in HR. by rewrite Hu in HR.
Qed.

(** C3 (as amended). At every state reached from the empty registry by
    [Register], [Rename] and [Remove] calls in which [Rename] is applied to
    a current member, [Remove] to a current member or to a former one
    whose stored name is free, and the id counter has not wrapped around,
    the membership set and the name map describe the same membership
    (every mapped name belongs to the member it is mapped to, every
    member's current name is mapped to it), so the names of the members
    are pairwise distinct; and every such call returns without panic. *)
Theorem registry_invariant (animals : list string) (s : State) :
  reachable animals s →
  consistent s ∧ distinct_names s ∧
  ∀ c, proper animals s c → ∃ s', exec animals s c = Ret s' ∧ consistent s'.
Proof.
  intros Hr.
  assert (consistent s) as Hc.
  { induction Hr as [| s c s' _ IH Hp He]; [apply consistent_init |].
    destruct (exec_consistent animals s c IH Hp) as (s'' & He' & Hc'').
    congruence. }
  split; [done |]. split; [by apply consistent_distinct_names |].
  intros c Hp. by apply exec_consistent.
Qed.

Lemma one_member_consistent : consistent one_member.
Proof.
  assert (proper zoo init (CallRegister draw0 5000000)) as Hp.
  { split; [done |]. vm_compute. reflexivity. }
  destruct (exec_consistent zoo init _ consistent_init Hp) as (s' & He & Hc).
  assert (exec zoo init (CallRegister draw0 5000000) = Ret one_member) as He'
    by (vm_compute; reflexivity).
  rewrite He' in He. by injection He as <-.
Qed.

Lemma registry_invariant_witness :
  consistent one_member ∧ distinct_names one_member ∧
  ∀ c, proper zoo one_member c →
       ∃ s', exec zoo one_member c = Ret s' ∧ consistent s'.
Proof.
  apply (registry_invariant zoo one_member).
  apply (reach_step zoo init (CallRegister draw0 5000000)).
  - apply reach_init.
  - split; [done |]. vm_compute. reflexivity.
  - vm_compute. reflexivity.
Defined.

(** C3 (as stated) fails: once a participant that has left is renamed,
    its new name is mapped to a non-member and the entry of whoever took
    its old name is deleted; the next registration is then given a name
    that a member already has. *)
Lemma registry_invariant_broken :
  run zoo init rename_after_leaving = Ret after_rename_after_leaving
  ∧ ¬ consistent after_rename_after_leaving
  ∧ ¬ distinct_names after_rename_after_leaving.
Proof.
  split; [vm_compute; reflexivity |]. split.
  - intros Hc.
    assert (0 ∈ us (chat after_rename_after_leaving)) as Hin.
    { by apply (proj1 (cons_names _ Hc "Bee" 0)). }
    simpl in Hin. by not_in_list Hin.
  - unfold distinct_names. simpl.
    intros Hnd. apply NoDup_cons in Hnd as [Hnot _].
    apply Hnot. by left.
Qed.

(** C1: the run [name_reused] leaves participant 0 removed and
    participant 1 under 0's former name; calling [Remove] on 0 again then
    reports a removal, takes participant 1 out of the membership set and
    of the name map, and broadcasts a goodbye notice. *)
Theorem Remove_again_removes_namesake :
  run zoo init name_reused = Ret after_name_reused
  ∧ (0 ∉ us (chat after_name_reused))
  ∧ Remove 9000000 after_name_reused 0 =
      (Ret (true,
            {| mem := mem after_name_reused;
               chat := {| seq := 2; us := []; ns := ∅ |} |}),
       [EvBroadcast
          {| req_ID := 0; req_Method := "goodbye";
             req_Params := Some {[ "name" := VString "Ant"; "time" := VInt64 9 ]} |}]).
Proof.
  split; [vm_compute; reflexivity |]. split.
  - simpl. intros Hin. by not_in_list Hin.
  - vm_compute. reflexivity.
Qed.

(** C2: the run [name_reused_by_elder] leaves participant 1 removed and
    participant 0 under 1's former name; calling [Remove] on 1 again
    takes the "chat: inconsistent state" branch. *)
Theorem Remove_again_panics :
  run zoo init name_reused_by_elder = Ret after_name_reused_by_elder
  ∧ (1 ∉ us (chat after_name_reused_by_elder))
  ∧ remove after_name_reused_by_elder 1 = Panic "chat: inconsistent state"
  ∧ run zoo init (name_reused_by_elder ++ [CallRemove 1 9000000])
    = Panic "chat: inconsistent state".
Proof.
  split; [vm_compute; reflexivity |]. split; [simpl; intros Hin; by not_in_list Hin |].
  split; vm_compute; reflexivity.
Qed.

(** ** Rename *)

(** C4. In a consistent registry, for a member [user]: [Rename] succeeds
    exactly when no member holds the new name (the name of [user] itself
    counts as held); on failure nothing changes; on success the returned
    previous name is free, the new name is mapped to [user], the stored
    name of [user] is the new one, and the name map has changed by just
    this move. *)
Theorem Rename_spec (s : State) (user : ptr) (nm : string) :
  consistent s → user ∈ us (chat s) →
  ∃ u prev ok s',
    mem s !! user = Some u
    ∧ Rename s user nm = Ret (prev, ok, s')
    ∧ (ok = true ↔ ¬ ∃ q, q ∈ us (chat s) ∧ name_of s q = Some nm)
    ∧ (nm = name u → ok = false)
    ∧ (ok = false → s' = s)
    ∧ (ok = true →
         prev = name u
         ∧ ns (chat s') = <[nm := user]> (delete prev (ns (chat s)))
         ∧ ns (chat s') !! prev = None
         ∧ ns (chat s') !! nm = Some user
         ∧ mem s' !! user = Some {| id := id u; name := nm |}
         ∧ (∀ q, q ≠ user → mem s' !! q = mem s !! q)
         ∧ us (chat s') = us (chat s)
         ∧ seq (chat s') = seq (chat s)).
Proof.
  intros Hc Huser.
  destruct (cons_alloc s Hc user Huser) as [u Hu].
  pose proof (consistent_member_name s user u Hc Huser Hu) as Hprev.
  assert (user < length (mem s)) as Hlen by (by apply lookup_lt_is_Some).
  exists u.
  destruct (ns (chat s) !! nm) as [v|] eqn:Hnm.
  - exists "", false, s.
    split; [done |]. split; [apply Rename_taken; eauto |].
    split; [| done].
    split; [done |]. intros Hfree. exfalso. apply Hfree.
    exists v. by apply (cons_names s Hc).
  - eexists (name u), true, _.
    split; [done |]. split; [by apply Rename_free |]. cbn [mem chat us ns seq].
    split; [| split; [| split; [done |]]].
    + split; [| done]. intros _ (q & Hq & Hname).
      assert (ns (chat s) !! nm = Some q) by (by apply (cons_names s Hc)).
      congruence.
    + intros ->. congruence.
    + intros _. split; [done |]. split; [done |].
      assert (name u ≠ nm) as Hne by congruence.
      split; [| split; [| split; [| split; [| done]]]].
      * rewrite lookup_insert_ne by done. apply lookup_delete_eq.
      * apply lookup_insert_eq.
      * by apply list_lookup_insert_eq.
      * intros q Hq. by apply list_lookup_insert_ne.
Qed.

Lemma Rename_spec_witness :
  ∃ u prev ok s',
    mem one_member !! 0 = Some u
    ∧ Rename one_member 0 "Fox" = Ret (prev, ok, s')
    ∧ (ok = true ↔ ¬ ∃ q, q ∈ us (chat one_member) ∧ name_of one_member q = Some "Fox")
    ∧ ("Fox" = name u → ok = false)
    ∧ (ok = false → s' = one_member)
    ∧ (ok = true →
         prev = name u
         ∧ ns (chat s') = <["Fox" := 0]> (delete prev (ns (chat one_member)))
         ∧ ns (chat s') !! prev = None
         ∧ ns (chat s') !! "Fox" = Some 0
         ∧ mem s' !! 0 = Some {| id := id u; name := "Fox" |}
         ∧ (∀ q, q ≠ 0 → mem s' !! q = mem one_member !! q)
         ∧ us (chat s') = us (chat one_member)
         ∧ seq (chat s') = seq (chat one_member)).
Proof.
  apply (Rename_spec one_member 0 "Fox").
  - apply one_member_consistent.
  - simpl. by left.
Defined.

(** ** The receive step *)

(** A "publish" request whose params are a (non-nil) mapping: author and
    time are stored into the params, the result is broadcast, nothing is
    written to the sender directly, and the step returns nil. *)
Lemma Receive_publish (s : State) (u : ptr) (usr : User) (req : Request)
    (m : gmap string value) (now : Z) (wr : option string) :
  mem s !! u = Some usr →
  req_Method req = "publish" → req_Params req = Some m →
  Receive s u (Decoded req) now wr =
    {| result := Ret None;
       after := s;
       events :=
         [EvBroadcast
            {| req_ID := 0; req_Method := "publish";
               req_Params :=
                 Some (<["time" := VInt64 (Z.quot now 1000000)]>
                         (<["author" := VString (name usr)]> m)) |}] |}.
Proof.
  intros Hu Hm Hp. unfold Receive. rewrite Hu. cbn [readRequest].
  rewrite Hm, Hp. reflexivity.
Qed.

(** C5: a "publish" request that was decoded without params has a nil
    mapping; storing the author into it panics, so the step neither
    broadcasts nor returns. *)
Theorem Receive_publish_nil_params (now : Z) (wr : option string) :
  Receive one_member 0 (Decoded publish_without_params) now wr =
    {| result := Panic "assignment to entry in nil map";
       after := one_member;
       events := [] |}.
Proof. reflexivity. Qed.

Lemma param_string_None (o : Object) (k : string) :
  param_string o k = None ↔
  ∀ m v, o = Some m → m !! k ≠ Some (VString v).
Proof.
  unfold param_string. destruct o as [m|]; [| by split].
  split.
  - intros H m' v [= <-] Hv. by rewrite Hv in H.
  - intros H. destruct (m !! k) as [[]|] eqn:Hk; try done.
    by destruct (H m s eq_refl).
Qed.

(** C7 (as amended). For a decoded "rename" request: without a
    string-typed "name" the participant is sent the error "bad params" and
    the state is unchanged; if the name is in the name map it is sent
    "already exists", the state is unchanged and nothing is broadcast;
    otherwise the registry is renamed, the notice "rename" with prev, name
    and time is broadcast, and the participant is sent a reply with the
    request's id whose result is the nil mapping, which is encoded as
    null.  The step returns what the write of the reply returns. *)
Theorem Receive_rename (s : State) (u : ptr) (usr : User) (req : Request)
    (now : Z) (wr : option string) :
  mem s !! u = Some usr → req_Method req = "rename" →
  (param_string (req_Params req) "name" = None →
     Receive s u (Decoded req) now wr =
       {| result := Ret wr; after := s;
          events := [EvWrite u (MsgError
            {| err_ID := req_ID req;
               err_Error := Some {[ "error" := VString "bad params" ]} |})] |})
  ∧ (∀ nm, param_string (req_Params req) "name" = Some nm →
       is_Some (ns (chat s) !! nm) →
       Receive s u (Decoded req) now wr =
         {| result := Ret wr; after := s;
            events := [EvWrite u (MsgError
              {| err_ID := req_ID req;
                 err_Error := Some {[ "error" := VString "already exists" ]} |})] |})
  ∧ (∀ nm, param_string (req_Params req) "name" = Some nm →
       ns (chat s) !! nm = None →
       Receive s u (Decoded req) now wr =
         {| result := Ret wr;
            after :=
              {| mem := <[u := {| id := id usr; name := nm |}]> (mem s);
                 chat := {| seq := seq (chat s);
                            us := us (chat s);
                            ns := <[nm := u]> (delete (name usr) (ns (chat s))) |} |};
            events :=
              [EvBroadcast
                 {| req_ID := 0; req_Method := "rename";
                    req_Params :=
                      Some {[ "prev" := VString (name usr); "name" := VString nm;
                              "time" := VInt64 (Z.quot now 1000000) ]} |};
               EvWrite u (MsgResponse
                 {| resp_ID := req_ID req; resp_Result := None |})] |}).
Proof.
  intros Hu Hm. unfold Receive. rewrite Hu. cbn [readRequest]. rewrite Hm.
  cbn [String.eqb Ascii.eqb Bool.eqb andb].
  split; [| split].
  - intros ->. reflexivity.
  - intros nm -> Htaken. by rewrite Rename_taken.
  - intros nm -> Hfree. by rewrite (Rename_free s u nm usr).
Qed.

Lemma Receive_rename_witness :
  (param_string (req_Params rename_to_Fox) "name" = None →
     Receive one_member 0 (Decoded rename_to_Fox) 5000000 None =
       {| result := Ret None; after := one_member;
          events := [EvWrite 0 (MsgError
            {| err_ID := req_ID rename_to_Fox;
               err_Error := Some {[ "error" := VString "bad params" ]} |})] |})
  ∧ (∀ nm, param_string (req_Params rename_to_Fox) "name" = Some nm →
       is_Some (ns (chat one_member) !! nm) →
       Receive one_member 0 (Decoded rename_to_Fox) 5000000 None =
         {| result := Ret None; after := one_member;
            events := [EvWrite 0 (MsgError
              {| err_ID := req_ID rename_to_Fox;
                 err_Error := Some {[ "error" := VString "already exists" ]} |})] |})
  ∧ (∀ nm, param_string (req_Params rename_to_Fox) "name" = Some nm →
       ns (chat one_member) !! nm = None →
       Receive one_member 0 (Decoded rename_to_Fox) 5000000 None =
         {| result := Ret None;
            after :=
              {| mem := <[0 := {| id := 0; name := nm |}]> (mem one_member);
                 chat := {| seq := seq (chat one_member);
                            us := us (chat one_member);
                            ns := <[nm := 0]> (delete "Ant" (ns (chat one_member))) |} |};
            events :=
              [EvBroadcast
                 {| req_ID := 0; req_Method := "rename";
                    req_Params :=
                      Some {[ "prev" := VString "Ant"; "name" := VString nm;
                              "time" := VInt64 (Z.quot 5000000 1000000) ]} |};
               EvWrite 0 (MsgResponse
                 {| resp_ID := req_ID rename_to_Fox; resp_Result := None |})] |}).
Proof.
  apply (Receive_rename one_member 0 {| id := 0; name := "Ant" |} rename_to_Fox
           5000000 None).
  - reflexivity.
  - reflexivity.
Defined.

(** C7 (as stated) fails: the reply to a successful rename carries the nil
    mapping as its result, not the empty mapping. *)
Lemma Receive_rename_result_not_empty :
  events (Receive one_member 0 (Decoded rename_to_Fox) 5000000 None) =
    [EvBroadcast
       {| req_ID := 0; req_Method := "rename";
          req_Params :=
            Some {[ "prev" := VString "Ant"; "name" := VString "Fox";
                    "time" := VInt64 5 ]} |};
     EvWrite 0 (MsgResponse {| resp_ID := 1; resp_Result := None |})]
  ∧ EvWrite 0 (MsgResponse {| resp_ID := 1; resp_Result := Some ∅ |})
    ∉ events (Receive one_member 0 (Decoded rename_to_Fox) 5000000 None).
Proof.
  assert (events (Receive one_member 0 (Decoded rename_to_Fox) 5000000 None) =
    [EvBroadcast
       {| req_ID := 0; req_Method := "rename";
          req_Params :=
            Some {[ "prev" := VString "Ant"; "name" := VString "Fox";
                    "time" := VInt64 5 ]} |};
     EvWrite 0 (MsgResponse {| resp_ID := 1; resp_Result := None |})]) as Hev
    by (vm_compute; reflexivity).
  split; [exact Hev |]. rewrite Hev. intros Hin. by not_in_list Hin.
Qed.

(** C8. With [u] a live participant: when reading or decoding the frame
    fails, the step closes the connection, returns that error and writes
    nothing; when the frame decodes to a request whose method is neither
    "rename" nor "publish", the step writes the error "not implemented"
    under the request's id, leaves the connection open and the registry
    unchanged, and returns what that write returns: nil once the reply is
    written. *)
Theorem Receive_fatal_and_recoverable (s : State) (u : ptr) (usr : User)
    (now : Z) (wr : option string) :
  mem s !! u = Some usr →
  (∀ err,
     Receive s u (ReadFailure err) now wr =
       {| result := Ret (Some err); after := s; events := [EvClose u] |}
     ∧ Receive s u (Undecodable err) now wr =
       {| result := Ret (Some err); after := s; events := [EvClose u] |})
  ∧ (∀ req,
       req_Method req ≠ "rename" → req_Method req ≠ "publish" →
       Receive s u (Decoded req) now wr =
         {| result := Ret wr; after := s;
            events := [EvWrite u (MsgError
              {| err_ID := req_ID req;
                 err_Error := Some {[ "error" := VString "not implemented" ]} |})] |}
       ∧ (EvClose u ∉ events (Receive s u (Decoded req) now wr))
       ∧ (wr = None → result (Receive s u (Decoded req) now wr) = Ret None)).
Proof.
  intros Hu. split.
  - intros err. unfold Receive. rewrite Hu. by split.
  - intros req Hr Hp.
    assert (Receive s u (Decoded req) now wr =
      {| result := Ret wr; after := s;
         events := [EvWrite u (MsgError
           {| err_ID := req_ID req;
              err_Error := Some {[ "error" := VString "not implemented" ]} |})] |})
      as Heq.
    { unfold Receive. rewrite Hu. cbn [readRequest].
      apply String.eqb_neq in Hr, Hp. by rewrite Hr, Hp. }
    split; [exact Heq |]. rewrite Heq. cbn [events result]. split.
    + intros Hin. by not_in_list Hin.
    + by intros ->.
Qed.

Lemma Receive_fatal_and_recoverable_witness :
  (∀ err,
     Receive one_member 0 (ReadFailure err) 5000000 None =
       {| result := Ret (Some err); after := one_member; events := [EvClose 0] |}
     ∧ Receive one_member 0 (Undecodable err) 5000000 None =
       {| result := Ret (Some err); after := one_member; events := [EvClose 0] |})
  ∧ (∀ req,
       req_Method req ≠ "rename" → req_Method req ≠ "publish" →
       Receive one_member 0 (Decoded req) 5000000 None =
         {| result := Ret None; after := one_member;
            events := [EvWrite 0 (MsgError
              {| err_ID := req_ID req;
                 err_Error := Some {[ "error" := VString "not implemented" ]} |})] |}
       ∧ (EvClose 0 ∉ events (Receive one_member 0 (Decoded req) 5000000 None))
       ∧ ((None : option string) = None →
          result (Receive one_member 0 (Decoded req) 5000000 None) = Ret None)).
Proof.
  apply (Receive_fatal_and_recoverable one_member 0 {| id := 0; name := "Ant" |}
           5000000 None).
  reflexivity.
Defined.

Example Receive_whisper :
  Receive one_member 0 (Decoded whisper) 5000000 None =
    {| result := Ret None; after := one_member;
       events := [EvWrite 0 (MsgError
         {| err_ID := 7;
            err_Error := Some {[ "error" := VString "not implemented" ]} |})] |}.
Proof. reflexivity. Qed.

Example Receive_publish_hi :
  Receive one_member 0 (Decoded publish_hi) 5000000 None =
    {| result := Ret None; after := one_member;
       events := [EvBroadcast
         {| req_ID := 0; req_Method := "publish";
            req_Params :=
              Some {[ "text" := VString "hi"; "author" := VString "Ant";
                      "time" := VInt64 5 ]} |}] |}.
Proof. vm_compute. reflexivity. Qed.

(** ** The dispatcher *)








(** ** The per-connection lock *)

Lemma outside_head (r : list action) :
  outside r → r = [] ∨ ∃ rest, r = ALock :: rest ∧ inside rest.
Proof.
  intros [[|p ps] ->]; [by left | right].
  destruct p; cbn [mbind list_bind code app];
    (eexists; split; [reflexivity |]);
    [exists PReadRequest, 1, ps | exists PWrite, 1, ps | exists PWriteRaw, 1, ps];
    (split; [simpl; lia | reflexivity]).
Qed.

Lemma inside_head (r : list action) :
  inside r →
  ∃ a rest, r = a :: rest ∧ a ≠ ALock ∧
    ((a = AUnlock ∧ outside rest) ∨ (a ≠ AUnlock ∧ inside rest)).
Proof.
  intros (p & k & ps & Hk & ->).
  destruct p; simpl in Hk;
    (destruct k as [|[|[|[|k]]]]; [lia | ..]; try lia); cbn [code drop app];
    (eexists _, _; split; [reflexivity |]; split; [done |]).
  - right. split; [done |]. exists PReadRequest, 2, ps. split; [simpl; lia | done].
  - right. split; [done |]. exists PReadRequest, 3, ps. split; [simpl; lia | done].
  - left. split; [done |]. by exists ps.
  - right. split; [done |]. exists PWrite, 2, ps. split; [simpl; lia | done].
  - right. split; [done |]. exists PWrite, 3, ps. split; [simpl; lia | done].
  - left. split; [done |]. by exists ps.
  - right. split; [done |]. exists PWriteRaw, 2, ps. split; [simpl; lia | done].
  - left. split; [done |]. by exists ps.
Qed.

Lemma lock_inv_start (progs : list (list path)) : lock_inv (start progs).
Proof.
  intros t r Hr. left. unfold start in Hr. cbn [threads] in Hr.
  apply list_lookup_fmap_Some in Hr as (ps & -> & _). by exists ps.
Qed.

Lemma lock_inv_step (c c' : config) (t : nat) (a : action) :
  lock_inv c → lstep c t = Some (a, c') → lock_inv c'.
Proof.
  intros Hinv Hstep. unfold lstep in Hstep.
  destruct (threads c !! t) as [[|b rest]|] eqn:Ht; try discriminate Hstep.
  assert (t < length (threads c)) as Hlen by (by eapply lookup_lt_Some).
  assert (∀ t', t' ≠ t → ∀ r, threads c !! t' = Some r →
            holder c = None ∨ holder c = Some t → outside r) as Hothers.
  { intros t' Hne r Hr Hh. destruct (Hinv t' r Hr) as [Ho | [_ Hin]]; [done |].
    destruct Hh; congruence. }
  destruct (Hinv t _ Ht) as [Hout | [Hin Hhold]].
  - (* between two paths: the next action is Lock *)
    apply outside_head in Hout as [Hnil | (rest' & Heq & Hin)]; [discriminate Hnil |].
    injection Heq as -> ->.
    destruct (holder c) as [h|] eqn:Hh; [discriminate Hstep |].
    injection Hstep as <- <-. intros t' r Hr. cbn [threads holder] in *.
    destruct (decide (t' = t)) as [-> | Hne].
    + rewrite list_lookup_insert_eq in Hr by done. injection Hr as <-. by right.
    + rewrite list_lookup_insert_ne in Hr by done. left.
      apply (Hothers t' Hne r Hr). by left.
  - (* inside a path *)
    apply inside_head in Hin as (a' & rest' & Heq & Hnl & Hcase).
    injection Heq as -> ->.
    destruct Hcase as [[-> Hout] | [Hnu Hin]].
    + injection Hstep as <- <-. intros t' r Hr. cbn [threads holder] in *.
      left. destruct (decide (t' = t)) as [-> | Hne].
      * rewrite list_lookup_insert_eq in Hr by done. by injection Hr as <-.
      * rewrite list_lookup_insert_ne in Hr by done.
        apply (Hothers t' Hne r Hr). by right.
    + assert (c' = {| holder := holder c; threads := <[t := rest']> (threads c) |}) as ->.
      { destruct a'; congruence. }
      intros t' r Hr. cbn [threads holder] in *.
      destruct (decide (t' = t)) as [-> | Hne].
      * rewrite list_lookup_insert_eq in Hr by done. injection Hr as <-. by right.
      * rewrite list_lookup_insert_ne in Hr by done. by apply Hinv.
Qed.

Lemma lock_inv_interleave (sched : list nat) (c c' : config) :
  lock_inv c → interleave c sched = Some c' → lock_inv c'.
Proof.
  revert c. induction sched as [|t sched IH]; intros c Hinv Hrun; simpl in Hrun.
  - by injection Hrun as <-.
  - destruct (lstep c t) as [[a c1]|] eqn:Hstep; [| discriminate Hrun].
    apply (IH c1); [| done]. by apply (lock_inv_step c c1 t a).
Qed.

(** C10. In every interleaving of goroutines that run [readRequest],
    [write] and [writeRaw] on one connection: while a frame read is in
    progress no goroutine can write to the connection and none can take
    the connection's lock, and the reader itself can go on; so every
    write waits until the read has completed and its lock is released. *)
Theorem no_write_while_reading (progs : list (list path)) (sched : list nat)
    (c : config) :
  interleave (start progs) sched = Some c → reading c →
  (∀ t a c', lstep c t = Some (a, c') → a ≠ AWrite ∧ a ≠ ALock)
  ∧ ∃ t c', lstep c t = Some (AReadEnd, c').
Proof.
  intros Hrun (t0 & rest0 & Ht0).
  pose proof (lock_inv_interleave sched _ c (lock_inv_start progs) Hrun) as Hinv.
  assert (holder c = Some t0) as Hhold.
  { destruct (Hinv t0 _ Ht0) as [Hout | [_ Hh]]; [| done].
    apply outside_head in Hout as [Hnil | (r & Heq & _)]; discriminate. }
  split.
  - intros t a c' Hstep. unfold lstep in Hstep.
    destruct (threads c !! t) as [[|b rest]|] eqn:Ht; try discriminate Hstep.
    assert (a = b) as ->.
    { destruct b; [destruct (holder c); [discriminate Hstep |] | ..]; congruence. }
    split; intros ->.
    + destruct (Hinv t _ Ht) as [Hout | [_ Hh]].
      * apply outside_head in Hout as [Hnil | (r & Heq & _)]; discriminate.
      * assert (t = t0) as -> by congruence. congruence.
    + rewrite Hhold in Hstep. discriminate Hstep.
  - exists t0. unfold lstep. rewrite Ht0. eauto.
Qed.

Lemma no_write_while_reading_witness :
  ∃ c, interleave (start reader_and_writer) reader_first = Some c
    ∧ (∀ t a c', lstep c t = Some (a, c') → a ≠ AWrite ∧ a ≠ ALock)
    ∧ ∃ t c', lstep c t = Some (AReadEnd, c').
Proof.
  exists {| holder := Some 0;
            threads := [[AReadEnd; AUnlock]; [ALock; AWrite; AUnlock]] |}.
  split; [reflexivity |].
  apply (no_write_while_reading reader_and_writer reader_first).
  - reflexivity.
  - exists 0, [AUnlock]. reflexivity.
Defined.

(** * Further properties of the code *)

(** ** sort.Search as [remove] uses it *)




Lemma Search_loop_any (f : nat → outcome bool) (n fuel i j : nat) :
  (∀ h, h < n → ∃ b, f h = Ret b) →
  i ≤ j → j ≤ n → j - i ≤ fuel →
  (i = 0 ∨ f (i - 1) = Ret false) → (j = n ∨ f j = Ret true) →
  ∃ r, Search_loop fuel f i j = Ret r ∧ r ≤ n
       ∧ (r = 0 ∨ f (r - 1) = Ret false) ∧ (r = n ∨ f r = Ret true).
Proof.
  intros Hf. revert i j.
  induction fuel as [|fuel IH]; intros i j Hij Hj Hfuel Hlo Hhi; cbn [Search_loop].
  - assert (i = j) as -> by lia. exists j. eauto with lia.
  - case_decide as Hlt.
    + assert (i ≤ (i + j) / 2 < j) as Hh.
      { pose proof (Nat.div_mod_eq (i + j) 2).
        pose proof (Nat.mod_upper_bound (i + j) 2). lia. }
      destruct (Hf ((i + j) / 2)) as [[|] Hb]; [lia | |]; rewrite Hb.
      * apply IH; [lia | lia | lia | done | by right].
      * apply IH; [lia | lia | lia | | done].
        right. by replace ((i + j) / 2 + 1 - 1) with ((i + j) / 2) by lia.
    + assert (i = j) as -> by lia. exists j. eauto with lia.
Qed.

(** X2. For any predicate that does not panic on [0, n), monotone or not,
    [Search] returns an index of [0, n] at which the predicate holds (or
    [n]) and right below which it does not hold (or [0]). *)
Theorem Search_boundary (f : nat → outcome bool) (n : nat) :
  (∀ h, h < n → ∃ b, f h = Ret b) →
  ∃ r, Search n f = Ret r ∧ r ≤ n
       ∧ (r = 0 ∨ f (r - 1) = Ret false) ∧ (r = n ∨ f r = Ret true).
Proof.
  intros Hf. unfold Search.
  apply (Search_loop_any f n n 0 n Hf); [lia | lia | lia | by left | by left].
Qed.

Lemma Search_boundary_witness :
  ∃ r, Search 3 (λ h, Ret (bool_decide (h = 1))) = Ret r ∧ r ≤ 3
       ∧ (r = 0 ∨ (λ h, Ret (bool_decide (h = 1))) (r - 1) = Ret false)
       ∧ (r = 3 ∨ (λ h : nat, Ret (bool_decide (h = 1))) r = Ret true).
Proof.
  apply (Search_boundary (λ h, Ret (bool_decide (h = 1))) 3).
  intros h _. eauto.
Defined.

(** X3. For a predicate that is false up to some point and true from it
    on, [Search] returns that point: the least index at which the
    predicate holds, or [n] when it holds nowhere. *)
Theorem Search_least (f : nat → outcome bool) (g : nat → bool) (n : nat) :
  (∀ h, h < n → f h = Ret (g h)) →
  (∀ h h', h ≤ h' → h' < n → g h = true → g h' = true) →
  ∃ r, Search n f = Ret r ∧ r ≤ n
       ∧ (∀ h, h < r → g h = false) ∧ (∀ h, r ≤ h → h < n → g h = true).
Proof.
  intros Hf Hmono.
  destruct (Search_loop_any f n n 0 n) as (r & Hr & Hle & Hlo & Hhi);
    [eauto | lia | lia | lia | by left | by left |].
  fold (Search n f) in Hr.
  exists r. split; [done |]. split; [done |]. split.
  - intros h Hh. destruct Hlo as [-> | Hlo]; [lia |].
    rewrite Hf in Hlo by lia. injection Hlo as Hlo.
    destruct (g h) eqn:Hg; [| done].
    rewrite (Hmono h (r - 1)) in Hlo; [done | lia | lia | done].
  - intros h Hh Hn. destruct Hhi as [-> | Hhi]; [lia |].
    rewrite Hf in Hhi by lia. injection Hhi as Hhi.
    by apply (Hmono r h).
Qed.

Lemma Search_least_witness :
  ∃ r, Search 4 (λ h, Ret (bool_decide (2 ≤ h))) = Ret r ∧ r ≤ 4
       ∧ (∀ h, h < r → bool_decide (2 ≤ h) = false)
       ∧ (∀ h, r ≤ h → h < 4 → bool_decide (2 ≤ h) = true).
Proof.
  apply (Search_least (λ h, Ret (bool_decide (2 ≤ h))) (λ h, bool_decide (2 ≤ h)) 4).
  - reflexivity.
  - intros h h' Hle _ Hg. apply bool_decide_eq_true in Hg.
    apply bool_decide_eq_true. lia.
Defined.

(** ** Generated names *)

Lemma string_app_cons (x : Ascii.ascii) (a b : string) :
  String x a +:+ b = String x (a +:+ b).
Proof. reflexivity. Qed.

Lemma string_app_assoc (a b c : string) : (a +:+ b) +:+ c = a +:+ (b +:+ c).
Proof.
  induction a as [|x a IH]; [done |].
  by rewrite !string_app_cons, IH.
Qed.

Lemma string_app_nil_r (a : string) : a +:+ "" = a.
Proof.
  induction a as [|x a IH]; [done |].
  by rewrite string_app_cons, IH.
Qed.

Lemma all_digits_app (a b : string) :
  all_digits a = true → all_digits b = true → all_digits (a +:+ b) = true.
Proof.
  intros Ha Hb. induction a as [|x a IH]; [done |].
  rewrite string_app_cons. cbn [all_digits] in *.
  apply andb_true_iff in Ha as [Hx Ha]. by rewrite Hx, IH.
Qed.

Lemma all_digits_Itoa (d : nat) : d < 10 → all_digits (Itoa d) = true.
Proof.
  intros Hd.
  do 10 (destruct d as [|d]; [reflexivity |]).
  lia.
Qed.

Lemma nth_elem_of (l : list string) (i : nat) :
  i < length l → nth i l "" ∈ l.
Proof. intros Hi. apply list_elem_of_In. by apply nth_In. Qed.

Lemma randName_loop_shape (animals : list string) (rnd : nat → nat)
    (m : gmap string ptr) (fuel pos : nat) (suffix nm : string) :
  animals ≠ [] →
  randName_loop animals rnd fuel m pos suffix = Some (Ret nm) →
  ∃ w d, w ∈ animals ∧ nm = w +:+ (suffix +:+ d) ∧ all_digits d = true
         ∧ m !! nm = None.
Proof.
  intros Hne. revert pos suffix.
  induction fuel as [|fuel IH]; intros pos suffix Hrun; [discriminate Hrun |].
  rewrite randName_loop_round in Hrun by done.
  set (w := nth (Intn (length animals) (rnd pos)) animals "") in *.
  assert (w ∈ animals) as Hw.
  { apply nth_elem_of, Intn_lt. by destruct animals. }
  destruct (m !! (w +:+ suffix)) as [v|] eqn:Hc.
  - apply IH in Hrun as (w' & d & Hw' & -> & Hd & Hfree).
    exists w', (Itoa (Intn 10 (rnd (pos + 1))) +:+ d).
    split; [done |]. split; [by rewrite string_app_assoc |].
    split; [| done].
    apply all_digits_app; [| done]. by apply all_digits_Itoa, Intn_lt.
  - injection Hrun as <-. exists w, "".
    by rewrite string_app_nil_r.
Qed.

(** X4. Every name that [randName] returns is a word of the list followed
    by decimal digits only, and is not in the name map; when the word drawn
    first is free, it is returned as it is. *)
Theorem randName_shape (animals : list string) (rnd : nat → nat)
    (m : gmap string ptr) :
  animals ≠ [] →
  (∃ w d, w ∈ animals ∧ all_digits d = true
          ∧ randName animals rnd m = Ret (w +:+ d) ∧ m !! (w +:+ d) = None)
  ∧ (m !! nth (Intn (length animals) (rnd 0)) animals "" = None →
     randName animals rnd m = Ret (nth (Intn (length animals) (rnd 0)) animals "")).
Proof.
  intros Hne. split.
  - destruct (randName_fresh animals rnd m Hne) as (nm & Hnm & _).
    unfold randName in *.
    destruct (randName_loop animals rnd (S (S (max_name_len m))) m 0 "")
      as [[nm'|msg]|] eqn:Hrun; try discriminate Hnm.
    + injection Hnm as ->.
      apply randName_loop_shape in Hrun as (w & d & Hw & -> & Hd & Hfree); [| done].
      exists w, d. by simpl in *.
    + injection Hnm as <-.
      exfalso.
      destruct (randName_loop_finds animals rnd m (S (max_name_len m)) 0 "" Hne)
        as (nm' & Hrun' & _); [simpl; lia | congruence].
  - intros Hfree. unfold randName.
    rewrite randName_loop_round by done.
    rewrite string_app_nil_r, Hfree. done.
Qed.

Lemma randName_shape_witness :
  (∃ w d, w ∈ zoo ∧ all_digits d = true
          ∧ randName zoo draw0 {[ "Ant" := 0 ]} = Ret (w +:+ d)
          ∧ ({[ "Ant" := 0 ]} : gmap string ptr) !! (w +:+ d) = None)
  ∧ (({[ "Ant" := 0 ]} : gmap string ptr)
       !! nth (Intn (length zoo) (draw0 0)) zoo "" = None →
     randName zoo draw0 {[ "Ant" := 0 ]}
     = Ret (nth (Intn (length zoo) (draw0 0)) zoo "")).
Proof. apply (randName_shape zoo draw0 {[ "Ant" := 0 ]}). done. Defined.

(** ** Registration, removal and renaming *)

Lemma reachable_is_consistent (animals : list string) (s : State) :
  reachable animals s → consistent s.
Proof.
  induction 1 as [| s c s' _ IH Hp He]; [apply consistent_init |].
  destruct (exec_consistent animals s c IH Hp) as (s'' & He' & Hc'').
  congruence.
Qed.

(** X5. In a consistent registry, with a non-empty word list and a counter
    that does not wrap, [Register] returns a participant that was in
    nobody's hands before, gives it the value of the counter as id and a
    name that no member has, appends it to the membership set, maps the
    name to it, leaves every member's record as it was, says "hello" to
    it and broadcasts "greet" with the same name; the registry stays
    consistent. *)
Theorem Register_fresh (animals : list string) (rnd : nat → nat) (now : Z)
    (s : State) :
  consistent s → animals ≠ [] → (seq (chat s) + 1 < uint_modulus)%N →
  ∃ nm s',
    Register animals rnd now s =
      (Ret (length (mem s), s'),
       [EvWrite (length (mem s))
          (MsgRequest {| req_ID := 0; req_Method := "hello";
                         req_Params := Some {[ "name" := VString nm ]} |});
        EvBroadcast
          {| req_ID := 0; req_Method := "greet";
             req_Params :=
               Some {[ "name" := VString nm;
                       "time" := VInt64 (Z.quot now 1000000) ]} |}])
    ∧ (length (mem s) ∉ us (chat s))
    ∧ (∀ q, q ∈ us (chat s) → name_of s q ≠ Some nm)
    ∧ (∀ q a, q ∈ us (chat s) → id_of s q = Some a → (a < seq (chat s))%N)
    ∧ name_of s' (length (mem s)) = Some nm
    ∧ id_of s' (length (mem s)) = Some (seq (chat s))
    ∧ us (chat s') = us (chat s) ++ [length (mem s)]
    ∧ ns (chat s') = <[nm := length (mem s)]> (ns (chat s))
    ∧ (∀ q, q ∈ us (chat s) → mem s' !! q = mem s !! q)
    ∧ consistent s'.
Proof.
  intros Hc Hne Hseq.
  destruct (Register_consistent animals rnd now s Hc Hne Hseq)
    as (nm & s' & HR & Hfree & Hmem & Hus & Hns & _ & Hc').
  exists nm, s'.
  assert (∀ q, q ∈ us (chat s) → q < length (mem s)) as Hlt.
  { intros q Hq. apply lookup_lt_is_Some. by apply (cons_alloc s Hc). }
  split.
  { unfold Register in *.
    destruct (randName animals rnd (ns (chat s))) as [nm'|msg] eqn:Hnm;
      [| discriminate HR].
    cbn [fst] in HR. injection HR as <-. cbn [mem] in Hmem.
    apply app_inj_tail in Hmem as [_ Hmem]. by injection Hmem as ->. }
  split; [intros Hin; apply Hlt in Hin; lia |].
  split.
  { intros q Hq Hname.
    assert (ns (chat s) !! nm = Some q) by (by apply (cons_names s Hc)).
    congruence. }
  split; [apply (cons_seq s Hc) |].
  unfold name_of, id_of. rewrite Hmem.
  rewrite lookup_app_r, Nat.sub_diag by lia. cbn.
  do 4 (split; [done |]). split; [| done].
  intros q Hq. apply lookup_app_l. by apply Hlt.
Qed.

Lemma Register_fresh_witness :
  ∃ nm s',
    Register zoo draw0 6000000 one_member =
      (Ret (length (mem one_member), s'),
       [EvWrite (length (mem one_member))
          (MsgRequest {| req_ID := 0; req_Method := "hello";
                         req_Params := Some {[ "name" := VString nm ]} |});
        EvBroadcast
          {| req_ID := 0; req_Method := "greet";
             req_Params :=
               Some {[ "name" := VString nm;
                       "time" := VInt64 (Z.quot 6000000 1000000) ]} |}])
    ∧ (length (mem one_member) ∉ us (chat one_member))
    ∧ (∀ q, q ∈ us (chat one_member) → name_of one_member q ≠ Some nm)
    ∧ (∀ q a, q ∈ us (chat one_member) → id_of one_member q = Some a →
              (a < seq (chat one_member))%N)
    ∧ name_of s' (length (mem one_member)) = Some nm
    ∧ id_of s' (length (mem one_member)) = Some (seq (chat one_member))
    ∧ us (chat s') = us (chat one_member) ++ [length (mem one_member)]
    ∧ ns (chat s') = <[nm := length (mem one_member)]> (ns (chat one_member))
    ∧ (∀ q, q ∈ us (chat one_member) → mem s' !! q = mem one_member !! q)
    ∧ consistent s'.
Proof.
  apply (Register_fresh zoo draw0 6000000 one_member).
  - apply one_member_consistent.
  - done.
  - vm_compute. reflexivity.
Defined.

Lemma reachable_ids (animals : list string) (s : State) :
  reachable animals s →
  seq (chat s) = N.of_nat (length (mem s))
  ∧ ∀ p u, mem s !! p = Some u → id u = N.of_nat p.
Proof.
  induction 1 as [| s c s' Hr [IHseq IHid] Hp He]; [by split |].
  pose proof (reachable_is_consistent animals s Hr) as Hc.
  destruct c as [rnd now | user nm | user now]; simpl in Hp, He.
  - destruct Hp as [Hne Hseq].
    destruct (Register_consistent animals rnd now s Hc Hne Hseq)
      as (nm & s1 & HR & _ & Hmem & _ & _ & Hseq' & _).
    rewrite HR in He. injection He as <-.
    rewrite Hseq', Hmem, length_app. cbn [length]. split; [lia |].
    intros p u [Hu | [Hp Hu]]%lookup_app_Some; [by apply IHid |].
    destruct (p - length (mem s)) as [|k] eqn:Hk; [| done].
    injection Hu as <-. cbn [id]. rewrite IHseq. f_equal. lia.
  - destruct (cons_alloc s Hc user Hp) as [u Hu].
    destruct (ns (chat s) !! nm) as [v|] eqn:Hnm.
    + rewrite Rename_taken in He by eauto. by injection He as <-.
    + rewrite (Rename_free s user nm u) in He by done. injection He as <-.
      cbn [mem chat seq]. rewrite length_insert. split; [done |].
      intros p w Hw. destruct (decide (p = user)) as [-> | Hne].
      * rewrite list_lookup_insert_eq in Hw by (by eapply lookup_lt_Some).
        injection Hw as <-. cbn [id]. by apply IHid.
      * rewrite list_lookup_insert_ne in Hw by done. by apply IHid.
  - unfold Remove in He.
    destruct (remove s user) as [[r s1]|msg] eqn:HR; [| discriminate He].
    assert (mem s1 = mem s ∧ seq (chat s1) = seq (chat s)) as [Hmem Hseq].
    { destruct Hp as [Huser | (u & Hu & Hfree)].
      - destruct (remove_member s user Hc Huser) as (u & k & _ & _ & Heq).
        rewrite Heq in HR. by simplify_eq.
      - unfold remove in HR. rewrite Hu, Hfree in HR. by simplify_eq. }
    assert (s' = s1) as ->.
    { destruct r; [destruct (mem s1 !! user) |]; cbn [fst] in He; congruence. }
    rewrite Hmem, Hseq. by split.
Qed.

(** X6. In every state reached by proper calls, the id of a participant
    is its rank of registration: no two participants, members or gone,
    have the same id, every id is below the counter, and the counter is
    the number of participants ever registered. *)
Theorem ids_never_reused (animals : list string) (s : State) :
  reachable animals s →
  (∀ p q u v, mem s !! p = Some u → mem s !! q = Some v → id u = id v → p = q)
  ∧ (∀ p u, mem s !! p = Some u → (id u < seq (chat s))%N)
  ∧ seq (chat s) = N.of_nat (length (mem s)).
Proof.
  intros Hr. destruct (reachable_ids animals s Hr) as [Hseq Hid].
  split; [| split; [| done]].
  - intros p q u v Hu Hv Heq.
    rewrite (Hid p u Hu), (Hid q v Hv) in Heq. lia.
  - intros p u Hu. rewrite (Hid p u Hu), Hseq.
    apply lookup_lt_Some in Hu. lia.
Qed.

Lemma ids_never_reused_witness :
  (∀ p q u v, mem one_member !! p = Some u → mem one_member !! q = Some v →
              id u = id v → p = q)
  ∧ (∀ p u, mem one_member !! p = Some u → (id u < seq (chat one_member))%N)
  ∧ seq (chat one_member) = N.of_nat (length (mem one_member)).
Proof.
  apply (ids_never_reused zoo one_member).
  apply (reach_step zoo init (CallRegister draw0 5000000)).
  - apply reach_init.
  - split; [done |]. vm_compute. reflexivity.
  - vm_compute. reflexivity.
Defined.

Lemma filter_all {A} (P : A → Prop) `{!∀ x, Decision (P x)} (l : list A) :
  Forall P l → filter P l = l.
Proof.
  induction 1 as [|x l Hx _ IH]; [done |].
  by rewrite filter_cons_True, IH.
Qed.

(** Dropping the slot of an element that occurs once keeps the others, in
    their order. *)
Lemma delete_filter_NoDup (l : list ptr) (k : nat) (x : ptr) :
  NoDup l → l !! k = Some x → delete k l = filter (λ q, q ≠ x) l.
Proof.
  intros Hnd. revert k.
  induction Hnd as [|y l Hy Hnd IH]; intros k Hk; [done |].
  destruct k as [|k]; simpl in Hk.
  - injection Hk as ->. rewrite filter_cons_False by (intros H; by apply H).
    simpl. symmetry. apply filter_all. apply Forall_forall.
    intros q Hq ->. done.
  - assert (y ≠ x) as Hne.
    { intros ->. apply Hy. apply list_elem_of_lookup. eauto. }
    rewrite filter_cons_True by done. simpl. f_equal. by apply IH.
Qed.

(** X7. In a consistent registry, [Remove] on a member reports the
    removal, takes exactly that member out of the membership set and keeps
    the others in their order, deletes its name from the name map and
    nothing else, leaves every participant's record as it was, and
    broadcasts one "goodbye" with the member's name; the registry stays
    consistent. *)
Theorem Remove_member_spec (now : Z) (s : State) (user : ptr) :
  consistent s → user ∈ us (chat s) →
  ∃ u,
    mem s !! user = Some u
    ∧ Remove now s user =
        (Ret (true,
              {| mem := mem s;
                 chat := {| seq := seq (chat s);
                            us := filter (λ q, q ≠ user) (us (chat s));
                            ns := delete (name u) (ns (chat s)) |} |}),
         [EvBroadcast
            {| req_ID := 0; req_Method := "goodbye";
               req_Params :=
                 Some {[ "name" := VString (name u);
                         "time" := VInt64 (Z.quot now 1000000) ]} |}])
    ∧ consistent
        {| mem := mem s;
           chat := {| seq := seq (chat s);
                      us := filter (λ q, q ≠ user) (us (chat s));
                      ns := delete (name u) (ns (chat s)) |} |}.
Proof.
  intros Hc Huser.
  destruct (remove_member s user Hc Huser) as (u & k & Hu & Hk & Heq).
  rewrite (delete_filter_NoDup _ k user) in Heq;
    [| by apply consistent_NoDup | done].
  exists u. split; [done |]. split.
  - unfold Remove. rewrite Heq. cbn [mem]. by rewrite Hu.
  - apply (remove_consistent s _ user true Hc); [by left | done].
Qed.

Lemma Remove_member_spec_witness :
  ∃ u,
    mem one_member !! 0 = Some u
    ∧ Remove 7000000 one_member 0 =
        (Ret (true,
              {| mem := mem one_member;
                 chat := {| seq := seq (chat one_member);
                            us := filter (λ q, q ≠ 0) (us (chat one_member));
                            ns := delete (name u) (ns (chat one_member)) |} |}),
         [EvBroadcast
            {| req_ID := 0; req_Method := "goodbye";
               req_Params :=
                 Some {[ "name" := VString (name u);
                         "time" := VInt64 (Z.quot 7000000 1000000) ]} |}])
    ∧ consistent
        {| mem := mem one_member;
           chat := {| seq := seq (chat one_member);
                      us := filter (λ q, q ≠ 0) (us (chat one_member));
                      ns := delete (name u) (ns (chat one_member)) |} |}.
Proof.
  apply (Remove_member_spec 7000000 one_member 0).
  - apply one_member_consistent.
  - simpl. by left.
Defined.

(** X8. In a consistent registry, calling [Remove] on a member twice in a
    row removes it once: the second call reports that nothing was
    removed, broadcasts nothing and leaves the state as the first call
    left it. *)
Theorem Remove_idempotent (now1 now2 : Z) (s : State) (user : ptr) :
  consistent s → user ∈ us (chat s) →
  ∃ s1 ev,
    Remove now1 s user = (Ret (true, s1), [ev])
    ∧ consistent s1
    ∧ (user ∉ us (chat s1))
    ∧ Remove now2 s1 user = (Ret (false, s1), []).
Proof.
  intros Hc Huser.
  destruct (Remove_twice now1 now2 s user Hc Huser) as (s1 & evs & H1 & Hout & H2).
  destruct (remove_member s user Hc Huser) as (u & k & Hu & Hk & Heq).
  unfold Remove in H1. rewrite Heq in H1. cbn [mem] in H1. rewrite Hu in H1.
  injection H1 as <- <-.
  eexists _, _. split.
  { unfold Remove. rewrite Heq. cbn [mem]. rewrite Hu. reflexivity. }
  split; [| by split].
  apply (remove_consistent s _ user true Hc); [by left | done].
Qed.

Lemma Remove_idempotent_witness :
  ∃ s1 ev,
    Remove 7000000 one_member 0 = (Ret (true, s1), [ev])
    ∧ consistent s1
    ∧ (0 ∉ us (chat s1))
    ∧ Remove 8000000 s1 0 = (Ret (false, s1), []).
Proof.
  apply (Remove_idempotent 7000000 8000000 one_member 0).
  - apply one_member_consistent.
  - simpl. by left.
Defined.

(** X9. Registering a participant and removing it again gives back the
    membership set and the name map that were there before; only the
    counter has moved on, so the id is not handed out again. *)
Theorem Register_then_Remove (animals : list string) (rnd : nat → nat)
    (now1 now2 : Z) (s : State) :
  consistent s → animals ≠ [] → (seq (chat s) + 1 < uint_modulus)%N →
  ∃ u s1 s2,
    (Register animals rnd now1 s).1 = Ret (u, s1)
    ∧ (Remove now2 s1 u).1 = Ret (true, s2)
    ∧ us (chat s2) = us (chat s)
    ∧ ns (chat s2) = ns (chat s)
    ∧ seq (chat s2) = (seq (chat s) + 1)%N.
Proof.
  intros Hc Hne Hseq.
  destruct (Register_consistent animals rnd now1 s Hc Hne Hseq)
    as (nm & s1 & HR & Hfree & Hmem & Hus & Hns & Hseq' & Hc1).
  set (u := length (mem s)) in *.
  assert (u ∈ us (chat s1)) as Hu1.
  { rewrite Hus. apply elem_of_app. right. by left. }
  destruct (remove_member s1 u Hc1 Hu1) as (u0 & k & Hu0 & Hk & Heq).
  assert (u0 = {| id := seq (chat s); name := nm |}) as ->.
  { rewrite Hmem in Hu0. unfold u in Hu0.
    rewrite lookup_app_r, Nat.sub_diag in Hu0 by lia. by injection Hu0. }
  assert (k = length (us (chat s))) as ->.
  { apply (proj1 (NoDup_alt _) (consistent_NoDup s1 Hc1) _ _ u); [done |].
    rewrite Hus. by rewrite lookup_app_r, Nat.sub_diag. }
  eexists u, s1, _. split; [done |]. split.
  { unfold Remove. rewrite Heq. cbn [mem]. rewrite Hu0. reflexivity. }
  cbn [chat us ns seq name]. split; [| split; [| done]].
  - rewrite Hus, delete_take_drop, take_app_length.
    rewrite drop_ge by (rewrite length_app; simpl; lia).
    apply app_nil_r.
  - rewrite Hns. by apply delete_insert_id.
Qed.

Lemma Register_then_Remove_witness :
  ∃ u s1 s2,
    (Register zoo draw0 6000000 one_member).1 = Ret (u, s1)
    ∧ (Remove 7000000 s1 u).1 = Ret (true, s2)
    ∧ us (chat s2) = us (chat one_member)
    ∧ ns (chat s2) = ns (chat one_member)
    ∧ seq (chat s2) = (seq (chat one_member) + 1)%N.
Proof.
  apply (Register_then_Remove zoo draw0 6000000 7000000 one_member).
  - apply one_member_consistent.
  - done.
  - vm_compute. reflexivity.
Defined.

(** X10. Renaming a member to a free name and then back to its old name
    succeeds both times and restores the registry exactly. *)
Theorem Rename_round_trip (s : State) (user : ptr) (u : User) (nm : string) :
  consistent s → user ∈ us (chat s) → mem s !! user = Some u →
  ns (chat s) !! nm = None →
  ∃ s1,
    Rename s user nm = Ret (name u, true, s1)
    ∧ Rename s1 user (name u) = Ret (nm, true, s).
Proof.
  intros Hc Huser Hu Hfree.
  pose proof (consistent_member_name s user u Hc Huser Hu) as Hprev.
  assert (name u ≠ nm) as Hne by congruence.
  assert (user < length (mem s)) as Hlen by (by eapply lookup_lt_Some).
  eexists. split; [by apply Rename_free |].
  erewrite Rename_free; cycle 1.
  { cbn [chat ns]. rewrite lookup_insert_ne by done. apply lookup_delete_eq. }
  { cbn [mem]. by apply list_lookup_insert_eq. }
  cbn [mem chat seq us ns name id]. do 2 f_equal.
  destruct s as [m [sq l n]]. cbn [mem chat seq us ns] in *. f_equal.
  - rewrite list_insert_insert_eq. apply list_insert_id.
    rewrite Hu. by destruct u.
  - f_equal. rewrite delete_insert_id by (by rewrite lookup_delete_ne).
    by apply insert_delete_id.
Qed.

Lemma Rename_round_trip_witness :
  ∃ s1,
    Rename one_member 0 "Fox" = Ret (name {| id := 0; name := "Ant" |}, true, s1)
    ∧ Rename s1 0 (name {| id := 0; name := "Ant" |}) = Ret ("Fox", true, one_member).
Proof.
  apply (Rename_round_trip one_member 0 {| id := 0; name := "Ant" |} "Fox").
  - apply one_member_consistent.
  - simpl. by left.
  - reflexivity.
  - reflexivity.
Defined.

(** ** What a receive step can and cannot do *)

(** The cases of [Receive] for a live receiver. *)
Lemma Receive_cases (s : State) (u : ptr) (usr : User) (f : frame) (now : Z)
    (wr : option string) :
  mem s !! u = Some usr →
  let R := Receive s u f now wr in
  (∃ err, (readRequest f).2 = Some err ∧ R =
      {| result := Ret (Some err); after := s; events := [EvClose u] |})
  ∨ (f = ControlFrame None ∧ R = {| result := Ret None; after := s; events := [] |})
  ∨ (∃ req x, f = Decoded req ∧ err_ID x = req_ID req ∧ R =
      {| result := Ret wr; after := s; events := [EvWrite u (MsgError x)] |})
  ∨ (∃ req nm r, f = Decoded req ∧ req_Method req = "rename"
       ∧ ns (chat s) !! nm = None ∧ Rename s u nm = Ret (name usr, true, after R)
       ∧ result R = Ret wr
       ∧ events R = [EvBroadcast r;
                     EvWrite u (MsgResponse {| resp_ID := req_ID req;
                                               resp_Result := None |})])
  ∨ (∃ req r, f = Decoded req ∧ req_Method req = "publish"
       ∧ is_Some (req_Params req)
       ∧ R = {| result := Ret None; after := s; events := [EvBroadcast r] |})
  ∨ (∃ req, f = Decoded req ∧ req_Method req = "publish"
       ∧ req_Params req = None
       ∧ R = {| result := Panic "assignment to entry in nil map";
                after := s; events := [] |}).
Proof.
  intros Hu R. subst R. unfold Receive. rewrite Hu.
  destruct f as [err | [err|] | err | req]; cbn [readRequest snd].
  - left. eauto.
  - left. eauto.
  - right. left. eauto.
  - left. eauto.
  - destruct (String.eqb (req_Method req) "rename") eqn:Hr.
    + apply String.eqb_eq in Hr.
      destruct (param_string (req_Params req) "name") as [nm|].
      * destruct (ns (chat s) !! nm) as [v|] eqn:Hnm.
        -- rewrite Rename_taken by eauto. right. right. left.
           unfold writeErrorTo, write.
           eexists req, _. split; [done |]. split; [| reflexivity]. done.
        -- rewrite (Rename_free s u nm usr) by done.
           right. right. right. left. eexists req, nm, _.
           cbn [after result events writeResultTo write Broadcast app].
           rewrite (Rename_free s u nm usr) by done. eauto 10.
      * right. right. left. unfold writeErrorTo, write.
           eexists req, _. split; [done |]. split; [| reflexivity]. done.
    + destruct (String.eqb (req_Method req) "publish") eqn:Hp.
      * apply String.eqb_eq in Hp.
        destruct (req_Params req) as [m|] eqn:Hm; cbn [param_set].
        -- right. right. right. right. left. unfold Broadcast. eauto 10.
        -- right. right. right. right. right. eauto 10.
      * right. right. left. unfold writeErrorTo, write.
           eexists req, _. split; [done |]. split; [| reflexivity]. done.
Qed.

(** X11. Whatever frame arrives, a receive step does not change who is a
    member, in which order, with which id, nor the counter, nor the number
    of participants ever registered: it can only change a name. *)
Theorem Receive_keeps_membership (s : State) (u : ptr) (f : frame) (now : Z)
    (wr : option string) :
  us (chat (after (Receive s u f now wr))) = us (chat s)
  ∧ seq (chat (after (Receive s u f now wr))) = seq (chat s)
  ∧ length (mem (after (Receive s u f now wr))) = length (mem s)
  ∧ ∀ q, id_of (after (Receive s u f now wr)) q = id_of s q.
Proof.
  destruct (mem s !! u) as [usr|] eqn:Hu.
  2: { unfold Receive. rewrite Hu. done. }
  destruct (Receive_cases s u usr f now wr Hu)
    as [(err & _ & ->) | [[_ ->] | [(req & x & _ & _ & ->) |
       [(req & nm & r & _ & _ & Hfree & HR & _) | [(req & r & _ & _ & _ & ->) |
        (req & _ & _ & _ & ->)]]]]]; try done.
  rewrite (Rename_free s u nm usr) in HR by done.
  injection HR as <-. cbn [mem chat us seq]. rewrite length_insert.
  do 3 (split; [done |]).
  intros q. unfold id_of. cbn [mem].
  destruct (decide (q = u)) as [-> | Hne].
  - rewrite list_lookup_insert_eq by (by eapply lookup_lt_Some). by rewrite Hu.
  - by rewrite list_lookup_insert_ne.
Qed.

(** X12. For a member of a consistent registry, a receive step leaves the
    registry consistent, and it panics on exactly one kind of input: a
    "publish" request that was decoded with nil params. *)
Theorem Receive_consistent (s : State) (u : ptr) (f : frame) (now : Z)
    (wr : option string) :
  consistent s → u ∈ us (chat s) →
  consistent (after (Receive s u f now wr))
  ∧ ((∃ msg, result (Receive s u f now wr) = Panic msg) ↔
     ∃ req, f = Decoded req ∧ req_Method req = "publish" ∧ req_Params req = None).
Proof.
  intros Hc Hin. destruct (cons_alloc s Hc u Hin) as [usr Hu].
  destruct (Receive_cases s u usr f now wr Hu)
    as [(err & Herr & HR) | [[-> HR] | [(req & x & -> & _ & HR) |
       [(req & nm & r & -> & Hm & Hfree & HRn & Hres & _) |
        [(req & r & -> & _ & [m Hm] & HR) | (req & -> & Hm & Hp & HR)]]]]].
  - rewrite HR. split; [done |]. split; [intros [msg [=]] |].
    intros (req & -> & _). discriminate Herr.
  - rewrite HR. split; [done |]. split; [intros [msg [=]] | intros (req & [=] & _)].
  - rewrite HR. split; [done |]. split; [intros [msg [=]] |].
    intros (req' & [= <-] & Hp & Hnil).
    unfold Receive in HR. rewrite Hu in HR. cbn [readRequest] in HR.
    rewrite Hp, Hnil in HR. cbn in HR. discriminate HR.
  - split; [by apply (Rename_consistent s _ u nm _ _ Hc Hin HRn) |].
    rewrite Hres. split; [intros [msg [=]] |].
    intros (req' & [= <-] & Hp & _). rewrite Hm in Hp. discriminate Hp.
  - rewrite HR. split; [done |]. split; [intros [msg [=]] |].
    intros (req' & [= <-] & _ & Hnil). congruence.
  - rewrite HR. split; [done |]. split; [eauto | eauto].
Qed.

Lemma Receive_consistent_witness :
  consistent (after (Receive one_member 0 (Decoded rename_to_Fox) 5000000 None))
  ∧ ((∃ msg, result (Receive one_member 0 (Decoded rename_to_Fox) 5000000 None)
             = Panic msg) ↔
     ∃ req, Decoded rename_to_Fox = Decoded req ∧ req_Method req = "publish"
            ∧ req_Params req = None).
Proof.
  apply (Receive_consistent one_member 0 (Decoded rename_to_Fox) 5000000 None).
  - apply one_member_consistent.
  - simpl. by left.
Defined.

(** X13. A receive step touches no connection but the receiver's own:
    every direct write goes to the receiver, and the only connection it
    may close is the receiver's, which it closes exactly when
    [readRequest] returns an error; that error is then the result, the
    registry is unchanged and nothing is written or broadcast. *)
Theorem Receive_own_connection (s : State) (u : ptr) (usr : User) (f : frame)
    (now : Z) (wr : option string) :
  mem s !! u = Some usr →
  (∀ v x, EvWrite v x ∈ events (Receive s u f now wr) → v = u)
  ∧ (∀ v, EvClose v ∈ events (Receive s u f now wr) → v = u)
  ∧ (EvClose u ∈ events (Receive s u f now wr) ↔ is_Some (readRequest f).2)
  ∧ (∀ err, (readRequest f).2 = Some err →
       Receive s u f now wr =
         {| result := Ret (Some err); after := s; events := [EvClose u] |}).
Proof.
  intros Hu.
  assert (∀ e, e ∈ events (Receive s u f now wr) →
            (readRequest f).2 = None ∧ ((∃ x, e = EvWrite u x) ∨ ∃ r, e = EvBroadcast r)
            ∨ (is_Some (readRequest f).2 ∧ e = EvClose u)) as Hev.
  { intros e He.
    destruct (Receive_cases s u usr f now wr Hu)
      as [(err & Herr & HR) | [[-> HR] | [(req & x & -> & _ & HR) |
         [(req & nm & r & -> & _ & _ & _ & _ & HR) |
          [(req & r & -> & _ & _ & HR) | (req & -> & _ & _ & HR)]]]]];
      rewrite HR in He; cbn [events] in He.
    - right. apply list_elem_of_singleton in He as ->. split; [eauto | done].
    - by apply elem_of_nil in He.
    - left. apply list_elem_of_singleton in He as ->. split; [done |]. eauto.
    - left. split; [done |].
      apply elem_of_cons in He as [-> | ->%list_elem_of_singleton]; eauto.
    - left. apply list_elem_of_singleton in He as ->. split; [done |]. eauto.
    - by apply elem_of_nil in He. }
  assert (∀ err, (readRequest f).2 = Some err →
       Receive s u f now wr =
         {| result := Ret (Some err); after := s; events := [EvClose u] |}) as Herr.
  { intros err Hf. unfold Receive. rewrite Hu.
    destruct (readRequest f) as [o e]. cbn [snd] in Hf. rewrite Hf.
    by destruct o. }
  split; [| split; [| split; [| done]]].
  - intros v x [[_ [[y [= -> _]] | [r [=]]]] | [_ [=]]]%Hev. done.
  - intros v [[_ [[y [=]] | [r [=]]]] | [_ [= ->]]]%Hev. done.
  - split.
    + intros [[_ [[y [=]] | [r [=]]]] | [Hs _]]%Hev. done.
    + intros [err Hf]. rewrite (Herr err Hf). cbn [events]. by left.
Qed.

Lemma Receive_own_connection_witness :
  (∀ v x, EvWrite v x ∈ events (Receive one_member 0 (ReadFailure "EOF") 5000000 None)
          → v = 0)
  ∧ (∀ v, EvClose v ∈ events (Receive one_member 0 (ReadFailure "EOF") 5000000 None)
          → v = 0)
  ∧ (EvClose 0 ∈ events (Receive one_member 0 (ReadFailure "EOF") 5000000 None)
     ↔ is_Some (readRequest (ReadFailure "EOF")).2)
  ∧ (∀ err, (readRequest (ReadFailure "EOF")).2 = Some err →
       Receive one_member 0 (ReadFailure "EOF") 5000000 None =
         {| result := Ret (Some err); after := one_member; events := [EvClose 0] |}).
Proof.
  apply (Receive_own_connection one_member 0 {| id := 0; name := "Ant" |}
           (ReadFailure "EOF") 5000000 None).
  reflexivity.
Defined.

(** X14. The notice broadcast for a "publish" request carries the
    sender's stored name as author and the server's clock as time,
    whatever the sender put under these two keys; every other key of the
    params is passed on as it came. *)
Theorem publish_stamps (s : State) (u : ptr) (usr : User) (req : Request)
    (m : gmap string value) (now : Z) (wr : option string) :
  mem s !! u = Some usr →
  req_Method req = "publish" → req_Params req = Some m →
  ∃ p,
    events (Receive s u (Decoded req) now wr) =
      [EvBroadcast {| req_ID := 0; req_Method := "publish"; req_Params := Some p |}]
    ∧ p !! "author" = Some (VString (name usr))
    ∧ p !! "time" = Some (VInt64 (timestamp now))
    ∧ ∀ k, k ≠ "author" → k ≠ "time" → p !! k = m !! k.
Proof.
  intros Hu Hm Hp.
  rewrite (Receive_publish s u usr req m now wr Hu Hm Hp). cbn [events].
  eexists. split; [reflexivity |]. split; [| split].
  - rewrite lookup_insert_ne by done. apply lookup_insert_eq.
  - apply lookup_insert_eq.
  - intros k Ha Ht. by rewrite !lookup_insert_ne.
Qed.

Lemma publish_stamps_witness :
  ∃ p,
    events (Receive one_member 0 (Decoded publish_forged) 5000000 None) =
      [EvBroadcast {| req_ID := 0; req_Method := "publish"; req_Params := Some p |}]
    ∧ p !! "author" = Some (VString (name {| id := 0; name := "Ant" |}))
    ∧ p !! "time" = Some (VInt64 (timestamp 5000000))
    ∧ ∀ k, k ≠ "author" → k ≠ "time" →
           p !! k = ({[ "text" := VString "hi"; "author" := VString "Bee";
                        "time" := VInt64 1 ]} : gmap string value) !! k.
Proof.
  apply (publish_stamps one_member 0 {| id := 0; name := "Ant" |} publish_forged
           _ 5000000 None).
  - reflexivity.
  - reflexivity.
  - reflexivity.
Defined.

(** ** What the dispatcher delivers *)







(** ** Mutual exclusion and progress on a connection *)

Lemma not_outside_head (a : action) (r : list action) :
  a ≠ ALock → ¬ outside (a :: r).
Proof.
  intros Ha [Hnil | (rest & Heq & _)]%outside_head; [discriminate Hnil |].
  by injection Heq as -> _.
Qed.

Lemma holder_inv_start (progs : list (list path)) : holder_inv (start progs).
Proof. intros t Ht. discriminate Ht. Qed.

Lemma holder_inv_step (c c' : config) (t : nat) (a : action) :
  lock_inv c → holder_inv c → lstep c t = Some (a, c') → holder_inv c'.
Proof.
  intros Hinv Hhold Hstep. unfold lstep in Hstep.
  destruct (threads c !! t) as [[|b rest]|] eqn:Ht; try discriminate Hstep.
  assert (t < length (threads c)) as Hlen by (by eapply lookup_lt_Some).
  assert (b = ALock ∨ b ≠ ALock) as [-> | Hb] by (destruct b; auto).
  - destruct (holder c) as [h|] eqn:Hh; [discriminate Hstep |].
    injection Hstep as <- <-. intros t' [= <-]. cbn [threads].
    exists rest. split; [by apply list_lookup_insert_eq |].
    destruct (Hinv t _ Ht) as [Hout | [Hin _]].
    + apply outside_head in Hout as [Hnil | (rest' & Heq & Hin)]; [discriminate Hnil |].
      by injection Heq as ->.
    + apply inside_head in Hin as (a' & rest' & Heq & Hnl & _).
      by injection Heq as <- _.
  - destruct (Hinv t _ Ht) as [Hout | [Hin Hh]]; [by apply not_outside_head in Hout |].
    apply inside_head in Hin as (a' & rest' & Heq & _ & Hcase).
    injection Heq as <- <-.
    destruct Hcase as [[-> _] | [Hnu Hin]].
    + injection Hstep as <- <-. intros t' Ht'. discriminate Ht'.
    + assert (c' = {| holder := holder c; threads := <[t := rest]> (threads c) |}) as ->.
      { destruct b; congruence. }
      intros t' Ht'. cbn [holder threads] in *.
      assert (t' = t) as -> by congruence.
      exists rest. split; [by apply list_lookup_insert_eq | done].
Qed.

Lemma invariants_interleave (sched : list nat) (c c' : config) :
  lock_inv c → holder_inv c → interleave c sched = Some c' →
  lock_inv c' ∧ holder_inv c'.
Proof.
  revert c. induction sched as [|t sched IH]; intros c Hinv Hhold Hrun; simpl in Hrun.
  - by injection Hrun as <-.
  - destruct (lstep c t) as [[a c1]|] eqn:Hstep; [| discriminate Hrun].
    apply (IH c1); [| | done].
    + by apply (lock_inv_step c c1 t a).
    + by apply (holder_inv_step c c1 t a).
Qed.

(** X17. In every interleaving of [readRequest], [write] and [writeRaw]
    on one connection, at most one goroutine is past its [Lock] and not
    past its [Unlock]: while one is writing or reading, every other one
    has finished, is between two paths or is waiting to lock.  So the two
    writes of a [write] and the single write of a [writeRaw] never
    interleave. *)
Theorem one_goroutine_inside (progs : list (list path)) (sched : list nat)
    (c : config) (t t' : nat) (a : action) (r r' : list action) :
  interleave (start progs) sched = Some c →
  threads c !! t = Some (a :: r) → a ≠ ALock →
  t' ≠ t → threads c !! t' = Some r' →
  r' = [] ∨ ∃ rest, r' = ALock :: rest.
Proof.
  intros Hrun Ht Ha Hne Ht'.
  pose proof (lock_inv_interleave sched _ c (lock_inv_start progs) Hrun) as Hinv.
  destruct (Hinv t _ Ht) as [Hout | [_ Hh]]; [by apply not_outside_head in Hout |].
  destruct (Hinv t' _ Ht') as [Hout | [_ Hh']]; [| congruence].
  by apply outside_head in Hout as [Hnil | (rest & Heq & _)]; eauto.
Qed.

Lemma one_goroutine_inside_witness :
  [ALock; AWrite; AUnlock] = [] ∨ ∃ rest, [ALock; AWrite; AUnlock] = ALock :: rest.
Proof.
  apply (one_goroutine_inside reader_and_writer reader_first
           {| holder := Some 0;
              threads := [[AReadEnd; AUnlock]; [ALock; AWrite; AUnlock]] |}
           0 1 AReadEnd [AUnlock]).
  - reflexivity.
  - reflexivity.
  - discriminate.
  - discriminate.
  - reflexivity.
Defined.

Lemma finished_or_not (l : list (list action)) :
  (∀ t r, l !! t = Some r → r = []) ∨ ∃ t a r, l !! t = Some (a :: r).
Proof.
  induction l as [|x l [IH | (t & a & r & Ht)]].
  - left. intros t r Ht. by rewrite lookup_nil in Ht.
  - destruct x as [|a r].
    + left. intros [|t] r' Ht; simpl in Ht; [by injection Ht | eauto].
    + right. by exists 0, a, r.
  - right. by exists (S t), a, r.
Qed.

(** X18. The lock never leaves the goroutines stuck: in every
    configuration that an interleaving reaches, either every goroutine has
    run to its end or some goroutine can take its next step. *)
Theorem lock_never_stuck (progs : list (list path)) (sched : list nat)
    (c : config) :
  interleave (start progs) sched = Some c →
  finished c ∨ ∃ t a c', lstep c t = Some (a, c').
Proof.
  intros Hrun.
  destruct (invariants_interleave sched _ c (lock_inv_start progs)
              (holder_inv_start progs) Hrun) as [Hinv Hhold].
  destruct (holder c) as [h|] eqn:Hh.
  - right. destruct (Hhold h Hh) as (r & Hr & Hin).
    apply inside_head in Hin as (a & rest & -> & Hnl & _).
    exists h, a. unfold lstep. rewrite Hr. destruct a; [done | ..]; eauto.
  - destruct (finished_or_not (threads c)) as [Hfin | (t & a & r & Ht)]; [by left |].
    right. destruct (Hinv t _ Ht) as [Hout | [_ Hcontra]]; [| congruence].
    apply outside_head in Hout as [Hnil | (rest & Heq & _)]; [discriminate Hnil |].
    injection Heq as -> ->.
    exists t, ALock. unfold lstep. rewrite Ht, Hh. eauto.
Qed.

Lemma lock_never_stuck_witness :
  finished {| holder := Some 0;
              threads := [[AReadEnd; AUnlock]; [ALock; AWrite; AUnlock]] |}
  ∨ ∃ t a c',
      lstep {| holder := Some 0;
               threads := [[AReadEnd; AUnlock]; [ALock; AWrite; AUnlock]] |} t
      = Some (a, c').
Proof.
  apply (lock_never_stuck reader_and_writer reader_first).
  reflexivity.
Defined.

(** X19. A receive step answers at most once, and its answer carries the
    id of the request it answers: every direct write of the step for a
    decoded request is an error or a response with that request's id, and
    a "publish" request gets no direct answer at all. *)
Theorem Receive_reply_correlated (s : State) (u : ptr) (usr : User)
    (req : Request) (now : Z) (wr : option string) :
  mem s !! u = Some usr →
  (∀ v x, EvWrite v x ∈ events (Receive s u (Decoded req) now wr) →
     (∃ e, x = MsgError e ∧ err_ID e = req_ID req)
     ∨ (∃ r, x = MsgResponse r ∧ resp_ID r = req_ID req))
  ∧ length (direct_writes (events (Receive s u (Decoded req) now wr))) ≤ 1
  ∧ (req_Method req = "publish" →
     ∀ v x, EvWrite v x ∉ events (Receive s u (Decoded req) now wr)).
Proof.
  intros Hu.
  destruct (Receive_cases s u usr (Decoded req) now wr Hu)
    as [(err & Herr & HR) | [[[=] HR] | [(req' & x & [= <-] & Hid & HR) |
       [(req' & nm & r & [= <-] & Hm & _ & _ & _ & HR) |
        [(req' & r & [= <-] & Hm & _ & HR) | (req' & [= <-] & Hm & _ & HR)]]]]];
    [discriminate Herr | rewrite HR; cbn [events] ..].
  - split; [| split].
    + intros v y [= _ ->]%list_elem_of_singleton. eauto.
    + simpl. lia.
    + intros Hp. exfalso. unfold Receive in HR. rewrite Hu in HR.
      cbn [readRequest] in HR. rewrite Hp in HR. cbn in HR.
      destruct (req_Params req); cbn in HR; discriminate HR.
  - split; [| split].
    + intros v y [[=] | [= _ ->]%list_elem_of_singleton]%elem_of_cons. eauto.
    + simpl. lia.
    + intros Hp. rewrite Hm in Hp. discriminate Hp.
  - split; [| split].
    + intros v y [=]%list_elem_of_singleton.
    + simpl. lia.
    + intros _ v y [=]%list_elem_of_singleton.
  - split; [| split].
    + intros v y []%elem_of_nil.
    + simpl. lia.
    + intros _ v y []%elem_of_nil.
Qed.

Lemma Receive_reply_correlated_witness :
  (∀ v x, EvWrite v x ∈ events (Receive one_member 0 (Decoded whisper) 5000000 None) →
     (∃ e, x = MsgError e ∧ err_ID e = req_ID whisper)
     ∨ (∃ r, x = MsgResponse r ∧ resp_ID r = req_ID whisper))
  ∧ length (direct_writes
              (events (Receive one_member 0 (Decoded whisper) 5000000 None))) ≤ 1
  ∧ (req_Method whisper = "publish" →
     ∀ v x, EvWrite v x ∉ events (Receive one_member 0 (Decoded whisper) 5000000 None)).
Proof.
  apply (Receive_reply_correlated one_member 0 {| id := 0; name := "Ant" |} whisper
           5000000 None).
  reflexivity.
Defined.
